(** * Enigma rotors and reflectors (rotors.go)

    A shallow embedding of [rotors.go]: the [Rotor] and [Reflector]
    substitution units, their constructors and the two catalogs, with the
    Go run-time behaviour the file relies on (fixed-width integers, byte
    strings, [strings.IndexRune], index panics) written out. *)

From stdpp Require Import gmap strings list fin_maps.
From Stdlib Require Import ZArith Lia Ascii String.

Local Open Scope Z_scope.

(** ** Go integers

    [int] is 64 bits wide and [rune] is [int32]; both wrap around on
    overflow.  [%] truncates towards zero, which is [Z.rem]. *)
Module GoInt.

Definition wrap (w z : Z) : Z := (z + 2 ^ (w - 1)) mod 2 ^ w - 2 ^ (w - 1).

Definition int_add (a b : Z) : Z := wrap 64 (a + b).
Definition int_sub (a b : Z) : Z := wrap 64 (a - b).
Definition int_rem (a b : Z) : Z := Z.rem a b.

Definition rune_sub (a b : Z) : Z := wrap 32 (a - b).

(** Conversions [int(x)] on a rune, [rune(x)] on an int and [rune(x)] on a
    byte. *)
Definition int_of_rune (c : Z) : Z := c.
Definition rune_of_int (i : Z) : Z := wrap 32 i.
Definition rune_of_byte (b : Z) : Z := b.

End GoInt.
Export GoInt.

(** ** Go strings

    A Go string is a sequence of bytes.  The wiring tables are kept as
    Rocq strings, read through [bytes].  [rune_lit] is the value of a
    one-byte character, as a byte of a string or as a rune literal. *)
Definition rune_lit (c : ascii) : Z := Z.of_N (N_of_ascii c).

Definition bytes (s : string) : list Z := map rune_lit (list_ascii_of_string s).

(** [len(s)] *)
Definition len (s : string) : Z := Z.of_nat (List.length (bytes s)).

(** ** strings.IndexRune *)
Module strings.

Fixpoint IndexByte_from (i : Z) (l : list Z) (c : Z) : Z :=
  match l with
  | [] => -1
  | b :: l' => if b =? c then i else IndexByte_from (i + 1) l' c
  end.

Definition IndexByte (s : string) (c : Z) : Z := IndexByte_from 0 (bytes s) c.

Fixpoint has_prefix (p l : list Z) : bool :=
  match p, l with
  | [], _ => true
  | _ :: _, [] => false
  | a :: p', b :: l' => (a =? b) && has_prefix p' l'
  end.

Fixpoint Index_from (i : Z) (l sub : list Z) : Z :=
  if has_prefix sub l then i
  else match l with
       | [] => -1
       | _ :: l' => Index_from (i + 1) l' sub
       end.

(** [utf8.RuneSelf], [utf8.RuneError], [utf8.ValidRune] *)
Definition RuneSelf : Z := 128.
Definition RuneError : Z := 65533.

Definition ValidRune (r : Z) : bool :=
  ((0 <=? r) && (r <? 55296)) || ((57343 <? r) && (r <=? 1114111)).

(** [string(r)] for a valid rune at or above [RuneSelf]. *)
Definition encode_rune (r : Z) : list Z :=
  if r <=? 2047 then
    [Z.lor 192 (Z.shiftr r 6); Z.lor 128 (Z.land r 63)]
  else if r <=? 65535 then
    [Z.lor 224 (Z.shiftr r 12); Z.lor 128 (Z.land (Z.shiftr r 6) 63);
     Z.lor 128 (Z.land r 63)]
  else
    [Z.lor 240 (Z.shiftr r 18); Z.lor 128 (Z.land (Z.shiftr r 12) 63);
     Z.lor 128 (Z.land (Z.shiftr r 6) 63); Z.lor 128 (Z.land r 63)].

Definition between (lo x hi : Z) : bool := (lo <=? x) && (x <=? hi).
Definition cont (x : Z) : bool := between 128 x 191.

(** One step of [for i, r := range s]: whether the rune decoded at the head
    of [l] is [RuneError], and how many bytes the step consumes. *)
Definition decode_step (l : list Z) : bool * nat :=
  match l with
  | [] => (true, 1%nat)
  | b0 :: t =>
    if b0 <? 128 then (false, 1%nat)
    else if between 194 b0 223 then
      match t with
      | b1 :: _ => if cont b1 then (false, 2%nat) else (true, 1%nat)
      | _ => (true, 1%nat)
      end
    else if between 224 b0 239 then
      match t with
      | b1 :: b2 :: _ =>
        if between (if b0 =? 224 then 160 else 128) b1
                   (if b0 =? 237 then 159 else 191) && cont b2
        then ((b0 =? 239) && (b1 =? 191) && (b2 =? 189), 3%nat)
        else (true, 1%nat)
      | _ => (true, 1%nat)
      end
    else if between 240 b0 244 then
      match t with
      | b1 :: b2 :: b3 :: _ =>
        if between (if b0 =? 240 then 144 else 128) b1
                   (if b0 =? 244 then 143 else 191) && cont b2 && cont b3
        then (false, 4%nat)
        else (true, 1%nat)
      | _ => (true, 1%nat)
      end
    else (true, 1%nat)
  end.

Fixpoint first_error (fuel : nat) (i : Z) (l : list Z) : Z :=
  match fuel with
  | O => -1
  | S fuel' =>
    match l with
    | [] => -1
    | _ =>
      let '(err, w) := decode_step l in
      if err then i else first_error fuel' (i + Z.of_nat w) (drop w l)
    end
  end.

Definition IndexRune (s : string) (r : Z) : Z :=
  if (0 <=? r) && (r <? RuneSelf) then IndexByte s r
  else if r =? RuneError then first_error (List.length (bytes s)) 0 (bytes s)
  else if negb (ValidRune r) then -1
  else Index_from 0 (bytes s) (encode_rune r).

End strings.

(** ** Letter conversions *)

(** Modelled from the spec: [ToInt] and [ToChar] are called by [rotors.go]
    but defined elsewhere in the package.  The spec gives the mapping
    A -> 0 ... Z -> 25 between an upper-case letter and its zero-based
    position; the argument and result types are those of the call sites
    ([rune] to [int] and back), so the arithmetic wraps as Go's does. *)
Definition ToInt (char : Z) : Z := int_of_rune (rune_sub char (rune_lit "A")).

Definition ToChar (index : Z) : Z := rune_of_int (int_add (rune_lit "A") index).

(** ** Calls that may panic, over a store *)
Inductive outcome (A : Type) : Type :=
| Returned (a : A)
| Panicked.
Arguments Returned {A} a.
Arguments Panicked {A}.

Definition Go (S A : Type) : Type := S -> outcome A * S.

Definition go_ret {S A} (a : A) : Go S A := fun s => (Returned a, s).

Definition go_bind {S A B} (m : Go S A) (k : A -> Go S B) : Go S B :=
  fun s => match m s with
           | (Returned a, s') => k a s'
           | (Panicked, s') => (Panicked, s')
           end.

Definition go_panic {S A} : Go S A := fun s => (Panicked, s).

Definition go_read {S A} (f : S -> A) : Go S A := fun s => (Returned (f s), s).

Definition go_write {S} (f : S -> S) : Go S unit := fun s => (Returned tt, f s).

Notation "'let*' x ':=' m 'in' k" := (go_bind m (fun x => k))
  (at level 10, x name, m at level 100, k at level 200).
Notation "m ';;;' k" := (go_bind m (fun _ => k))
  (at level 100, k at level 200, right associativity).

(** [s[i]]: a byte of the string, or an index-out-of-range panic. *)
Definition index_string {S} (s : string) (i : Z) : Go S Z :=
  if (0 <=? i) && (i <? len s)
  then match bytes s !! Z.to_nat i with
       | Some b => go_ret b
       | None => go_panic
       end
  else go_panic.

(** ** Rotor *)
Module Rotor.

Record t : Type := mk {
  Sequence : string;
  Offset : Z;
  Ring : Z;
  Notch : gmap Z bool
}.

(** The memory a call [r.Step(&letter, invert)] works on: the receiver and
    the cell [letter] points to.  No field of the receiver is an [int32],
    so the cell is never part of it. *)
Record mem : Type := Mem { this : t; letter : Z }.

Definition set_letter (v : Z) (m : mem) : mem := {| this := this m; letter := v |}.

Definition Step (invert : bool) : Go mem unit :=
  let* l := go_read letter in
  let* ring := go_read (fun m => Ring (this m)) in
  let* offset := go_read (fun m => Offset (this m)) in
  let number := int_rem (int_add (int_add (int_sub (ToInt l) ring) offset) 26) 26 in
  let* number :=
    (if invert then
       let* sequence := go_read (fun m => Sequence (this m)) in
       go_ret (strings.IndexRune sequence (ToChar number))
     else
       let* sequence := go_read (fun m => Sequence (this m)) in
       let* b := index_string sequence number in
       go_ret (ToInt (rune_of_byte b))) in
  let* ring := go_read (fun m => Ring (this m)) in
  let* offset := go_read (fun m => Offset (this m)) in
  go_write (set_letter
    (ToChar (int_rem (int_add (int_sub (int_add number ring) offset) 26) 26))).

End Rotor.

(** [NewRotor]: the notch runes become the keys of a map to [true]. *)
Definition NewRotor (mapping : string) (notch : list Z) : Rotor.t :=
  let notchMap := foldl (fun (m : gmap Z bool) char => <[char := true]> m) ∅ notch in
  Rotor.mk mapping 0 0 notchMap.

(** [Rotors] *)
Definition Rotors_entries : list (string * Rotor.t) :=
  [ ("I",     NewRotor "EKMFLGDQVZNTOWYHXUSPAIBRCJ" [rune_lit "Q"]);
    ("II",    NewRotor "AJDKSIRUXBLHWTMCQGZNPYFVOE" [rune_lit "E"]);
    ("III",   NewRotor "BDFHJLCPRTXVZNYEIWGAKMUSQO" [rune_lit "V"]);
    ("IV",    NewRotor "ESOVPZJAYQUIRHXLNFTGKDCMWB" [rune_lit "J"]);
    ("V",     NewRotor "VZBRGITYUPSDNHLXAWMJQOFECK" [rune_lit "Z"]);
    ("VI",    NewRotor "JPGVOUMFYQBENHZRDKASXLICTW" [rune_lit "Z"; rune_lit "M"]);
    ("VII",   NewRotor "NZJHGRCXMYSWBOUFAIVLPEKQDT" [rune_lit "Z"; rune_lit "M"]);
    ("VIII",  NewRotor "FKQHTLXOCBJSPDZRAMEWNIUYGV" [rune_lit "Z"; rune_lit "M"]);
    ("Beta",  NewRotor "LEYJVCNIXWPBQMDRTAKZGFUHOS" []);
    ("Gamma", NewRotor "FSOKANUERHMBTIYCWLQPZXVGJD" []) ].

Definition Rotors : gmap string Rotor.t := list_to_map Rotors_entries.

(** ** Reflector *)
Module Reflector.

Record t : Type := mk { Sequence : string }.

Record mem : Type := Mem { this : t; letter : Z }.

Definition set_letter (v : Z) (m : mem) : mem := {| this := this m; letter := v |}.

Definition Reflect : Go mem unit :=
  let* l := go_read letter in
  let* sequence := go_read (fun m => Sequence (this m)) in
  go_write (set_letter (ToChar (strings.IndexRune sequence l))).

End Reflector.

(** [Reflectors] *)
Definition Reflectors_entries : list (string * Reflector.t) :=
  [ ("A",      Reflector.mk "EJMZALYXVBWFCRQUONTSPIKHGD");
    ("B",      Reflector.mk "YRUHQSLDPXNGOKMIEBFZCWVJAT");
    ("C",      Reflector.mk "FVPJIAOYEDRZXWGCTKUQSBNMHL");
    ("B-Thin", Reflector.mk "ENKQAUYWJICOPBLMDXZVFTHRGS");
    ("C-Thin", Reflector.mk "RDOBJNTKVEHMLFCWZAXGYIPSUQ") ].

Definition Reflectors : gmap string Reflector.t := list_to_map Reflectors_entries.


(** ** Well-formed wirings *)

(** The bytes of "ABCDEFGHIJKLMNOPQRSTUVWXYZ". *)
Definition alphabet : list Z := bytes "ABCDEFGHIJKLMNOPQRSTUVWXYZ".

(** A wiring is a 26-letter permutation: 26 bytes long, each of A-Z
    occurring exactly once. *)
Definition is_wiring (s : string) : bool :=
  (len s =? 26) && forallb (fun c => count_occ Z.eq_dec (bytes s) c =? 1)%nat alphabet.

(** A wiring that is its own inverse: the letter at the position of letter
    [c] is the letter of the position where [c] stands. *)
Definition is_involution (s : string) : bool :=
  is_wiring s &&
  forallb (fun i => match bytes s !! i with
                    | Some c => bool_decide (bytes s !! Z.to_nat (c - 65) = Some (65 + Z.of_nat i))
                    | None => false
                    end) (seq 0 26).

(** ** The notch test *)

(** [m[k]] on a [map[rune]bool]: a missing key reads as [false]. *)
Definition map_read (m : gmap Z bool) (k : Z) : bool := default false (m !! k).

(** Modelled from the spec: the notch test is not in [rotors.go]; the spec
    (section 4.1) describes it as checking whether the current absolute
    letter at the rotor's top position, derived from [offset] and
    independent of [ring], is a member of the notch set. *)
Definition AtNotch (r : Rotor.t) : bool :=
  map_read (Rotor.Notch r) (ToChar (Rotor.Offset r)).

(** ** The substitution as the specification words it

    Section 4.1 of the specification, over alphabet positions and with the
    mathematical [mod]; compared with [Rotor.Step] below. *)
Module Spec.

Definition letter_of_pos (i : Z) : Z := 65 + i.
Definition pos_of_letter (c : Z) : Z := c - 65.

(** "look up [sequence[shifted]], producing a new alphabet position" *)
Definition lookup (sequence : string) (i : Z) : option Z :=
  if 0 <=? i then pos_of_letter <$> bytes sequence !! Z.to_nat i else None.

(** "find the index [n] such that [sequence[n] == ToChar(shifted)]" *)
Definition inverse_lookup (sequence : string) (c : Z) : option Z :=
  Z.of_nat <$> List.find (fun n => bool_decide (bytes sequence !! n = Some c)) (seq 0 26).

(** "Compute [shifted = (letterPos - ring + offset + 26) mod 26]" *)
Definition shifted (offset ring letterPos : Z) : Z :=
  (letterPos - ring + offset + 26) mod 26.

(** "Output letter = [(n + ring - offset + 26) mod 26]" *)
Definition output (offset ring n : Z) : Z := (n + ring - offset + 26) mod 26.

Definition Step (sequence : string) (offset ring : Z) (invert : bool)
    (letterPos : Z) : option Z :=
  n ← (if invert
       then inverse_lookup sequence (letter_of_pos (shifted offset ring letterPos))
       else lookup sequence (shifted offset ring letterPos));
  Some (output offset ring n).

End Spec.

(** A rotor with its [Offset] and [Ring] fields assigned; the wiring and
    the notch map stay. *)
Definition with_position (r : Rotor.t) (offset ring : Z) : Rotor.t :=
  Rotor.mk (Rotor.Sequence r) offset ring (Rotor.Notch r).

(** ** Catalog lookups

    [v, ok := Rotors[id]]: a missing key gives the zero value and [false]. *)
Definition Rotors_index (id : string) : Rotor.t * bool :=
  match Rotors !! id with
  | Some r => (r, true)
  | None => (Rotor.mk "" 0 0 ∅, false)
  end.

Definition Reflectors_index (id : string) : Reflector.t * bool :=
  match Reflectors !! id with
  | Some r => (r, true)
  | None => (Reflector.mk "", false)
  end.

Definition rotor_ids : list string :=
  ["I"; "II"; "III"; "IV"; "V"; "VI"; "VII"; "VIII"; "Beta"; "Gamma"].

Definition reflector_ids : list string := ["A"; "B"; "C"; "B-Thin"; "C-Thin"].

(** A reflector with the wiring of rotor "I": a permutation that is not
    an involution. *)
Definition skew_reflector : Reflector.t := Reflector.mk "EKMFLGDQVZNTOWYHXUSPAIBRCJ".

(** ** Calls chained on one letter cell

    A well-formed rotor: permutation wiring, offset and ring in [0,26). *)
Definition Rotor_ok (r : Rotor.t) : bool :=
  is_wiring (Rotor.Sequence r)
  && (0 <=? Rotor.Offset r) && (Rotor.Offset r <? 26)
  && (0 <=? Rotor.Ring r) && (Rotor.Ring r <? 26).

(** A wiring that sends no letter to itself. *)
Definition no_fixed_point (s : string) : bool :=
  forallb (fun i => negb (bool_decide (bytes s !! i = Some (65 + Z.of_nat i)))) (seq 0 26).

(** [r.Step(&letter, invert)] and [f.Reflect(&letter)] as actions on the
    letter cell alone, the receiver being given. *)
Definition step_on (r : Rotor.t) (invert : bool) : Go Z unit :=
  fun l => let (o, m) := Rotor.Step invert (Rotor.Mem r l) in (o, Rotor.letter m).

Definition reflect_on (f : Reflector.t) : Go Z unit :=
  fun l => let (o, m) := Reflector.Reflect (Reflector.Mem f l) in (o, Reflector.letter m).

(** The letter stepped forward through the rotors in order, and stepped
    backwards through them in the opposite order. *)
Fixpoint forward_pass (rs : list Rotor.t) : Go Z unit :=
  match rs with
  | [] => go_ret tt
  | r :: rs' => step_on r false ;;; forward_pass rs'
  end.

Fixpoint backward_pass (rs : list Rotor.t) : Go Z unit :=
  match rs with
  | [] => go_ret tt
  | r :: rs' => backward_pass rs' ;;; step_on r true
  end.

(** Forward through the rotors, through the reflector, and back. *)
Definition signal_path (rs : list Rotor.t) (f : Reflector.t) : Go Z unit :=
  forward_pass rs ;;; reflect_on f ;;; backward_pass rs.

(** * Properties *)

(** ** Fixed-width arithmetic on small values *)
Section Arith.

Lemma wrap64_small z :
  -9223372036854775808 <= z < 9223372036854775808 -> wrap 64 z = z.
Proof.
  intros Hz. unfold wrap.
  change (2 ^ (64 - 1)) with 9223372036854775808.
  change (2 ^ 64) with 18446744073709551616.
  rewrite Z.mod_small; lia.
Qed.

Lemma wrap32_small z : -2147483648 <= z < 2147483648 -> wrap 32 z = z.
Proof.
  intros Hz. unfold wrap.
  change (2 ^ (32 - 1)) with 2147483648.
  change (2 ^ 32) with 4294967296.
  rewrite Z.mod_small; lia.
Qed.

Lemma int_add_small a b :
  -9223372036854775808 <= a + b < 9223372036854775808 -> int_add a b = a + b.
Proof. apply wrap64_small. Qed.

Lemma int_sub_small a b :
  -9223372036854775808 <= a - b < 9223372036854775808 -> int_sub a b = a - b.
Proof. apply wrap64_small. Qed.

Lemma int_rem_nonneg a : 0 <= a -> int_rem a 26 = a mod 26.
Proof. intros Ha. unfold int_rem. apply Z.rem_mod_nonneg; lia. Qed.

Lemma ToInt_small c : -2147483583 <= c < 2147483713 -> ToInt c = c - 65.
Proof.
  intros Hc. unfold ToInt, int_of_rune, rune_sub.
  change (rune_lit "A") with 65. apply wrap32_small. lia.
Qed.

Lemma ToChar_small i : -2147483713 <= i < 2147483583 -> ToChar i = 65 + i.
Proof.
  intros Hi. unfold ToChar, rune_of_int.
  change (rune_lit "A") with 65.
  rewrite int_add_small by lia. apply wrap32_small. lia.
Qed.

End Arith.

(** ** Byte search *)
Section Search.

Lemma IndexByte_from_found l : forall i k c,
  l !! k = Some c ->
  (forall j, (j < k)%nat -> l !! j <> Some c) ->
  strings.IndexByte_from i l c = i + Z.of_nat k.
Proof.
  induction l as [|b l IH]; intros i k c Hk Hfirst; [done|].
  destruct k as [|k]; simpl in *.
  - injection Hk as ->. rewrite Z.eqb_refl. lia.
  - destruct (Z.eqb_spec b c) as [->|Hne].
    + exfalso. apply (Hfirst 0%nat); [lia|done].
    + rewrite (IH (i + 1) k c Hk); [lia|].
      intros j Hj. apply (Hfirst (S j)). lia.
Qed.

Lemma NoDup_first (l : list Z) k c :
  NoDup l -> l !! k = Some c -> forall j, (j < k)%nat -> l !! j <> Some c.
Proof.
  intros Hnd Hk j Hj Hjc.
  pose proof (NoDup_lookup l j k c Hnd Hjc Hk). lia.
Qed.

Lemma IndexRune_ascii s c :
  0 <= c < 128 -> strings.IndexRune s c = strings.IndexByte s c.
Proof.
  intros Hc. unfold strings.IndexRune, strings.RuneSelf.
  destruct (Z.leb_spec 0 c); [|lia]. destruct (Z.ltb_spec c 128); [done|lia].
Qed.

Lemma IndexRune_NoDup s k c :
  0 <= c < 128 -> NoDup (bytes s) -> bytes s !! k = Some c ->
  strings.IndexRune s c = Z.of_nat k.
Proof.
  intros Hc Hnd Hk. rewrite IndexRune_ascii by done.
  unfold strings.IndexByte.
  rewrite (IndexByte_from_found _ 0 k c Hk); [lia|].
  by apply NoDup_first.
Qed.

End Search.

(** ** Wirings *)
Section Wiring.

Lemma alphabet_elem c : c ∈ alphabet <-> 65 <= c <= 90.
Proof.
  assert (Heq : alphabet = (fun k => 65 + Z.of_nat k) <$> seq 0 26) by reflexivity.
  rewrite Heq, list_elem_of_fmap. split.
  - intros (k & -> & Hk%elem_of_seq). lia.
  - intros Hc. exists (Z.to_nat (c - 65)). split; [lia|].
    apply elem_of_seq. lia.
Qed.

Lemma alphabet_NoDup : NoDup alphabet.
Proof. apply (bool_decide_unpack (NoDup alphabet)). by vm_compute. Qed.

Lemma alphabet_count c : In c alphabet -> count_occ Z.eq_dec alphabet c = 1%nat.
Proof.
  assert (Hall : forallb (fun c => count_occ Z.eq_dec alphabet c =? 1)%nat alphabet = true)
    by reflexivity.
  rewrite forallb_forall in Hall. intros Hc. apply Nat.eqb_eq, Hall, Hc.
Qed.

Lemma is_wiring_length s : is_wiring s = true -> List.length (bytes s) = 26%nat.
Proof.
  unfold is_wiring, len. intros [Hlen _]%andb_prop.
  apply Z.eqb_eq in Hlen. lia.
Qed.

Lemma is_wiring_count s c :
  is_wiring s = true -> 65 <= c <= 90 -> count_occ Z.eq_dec (bytes s) c = 1%nat.
Proof.
  unfold is_wiring. intros [_ Hall]%andb_prop Hc.
  rewrite forallb_forall in Hall.
  apply Nat.eqb_eq, Hall, list_elem_of_In, alphabet_elem, Hc.
Qed.

(** The executable check is exactly "a permutation of the alphabet". *)
Lemma is_wiring_Permutation s : is_wiring s = true <-> bytes s ≡ₚ alphabet.
Proof.
  split.
  - intros Hw. symmetry. apply submseteq_length_Permutation.
    + apply NoDup_submseteq; [apply alphabet_NoDup|].
      intros c Hc%alphabet_elem.
      apply list_elem_of_In, (count_occ_In Z.eq_dec).
      rewrite (is_wiring_count s c Hw Hc). lia.
    + rewrite (is_wiring_length s Hw). reflexivity.
  - intros Hp. unfold is_wiring, len. apply andb_true_intro. split.
    + rewrite (Permutation_length Hp). reflexivity.
    + apply forallb_forall. intros c Hc. apply Nat.eqb_eq.
      rewrite (Permutation_count_occ Z.eq_dec (bytes s) alphabet) in Hp.
      rewrite Hp. by apply alphabet_count.
Qed.

Lemma is_wiring_NoDup s : is_wiring s = true -> NoDup (bytes s).
Proof.
  intros Hp%is_wiring_Permutation. rewrite Hp. apply alphabet_NoDup.
Qed.

Lemma is_wiring_elem s c : is_wiring s = true -> c ∈ bytes s <-> 65 <= c <= 90.
Proof.
  intros Hp%is_wiring_Permutation. rewrite Hp. apply alphabet_elem.
Qed.

(** Reading a wiring at a position gives a letter. *)
Lemma is_wiring_lookup s i :
  is_wiring s = true -> 0 <= i < 26 ->
  exists n, 0 <= n < 26 /\ bytes s !! Z.to_nat i = Some (65 + n).
Proof.
  intros Hw Hi.
  destruct (lookup_lt_is_Some_2 (bytes s) (Z.to_nat i)) as [c Hc].
  { rewrite (is_wiring_length s Hw). lia. }
  assert (Hrange : 65 <= c <= 90).
  { apply (is_wiring_elem s c Hw), list_elem_of_lookup. eauto. }
  exists (c - 65). split; [lia|]. rewrite Hc. f_equal. lia.
Qed.

(** Every letter stands at exactly one position of a wiring. *)
Lemma is_wiring_find s n :
  is_wiring s = true -> 0 <= n < 26 ->
  exists i, 0 <= i < 26 /\ bytes s !! Z.to_nat i = Some (65 + n).
Proof.
  intros Hw Hn.
  assert (Hin : 65 + n ∈ bytes s) by (apply (is_wiring_elem s _ Hw); lia).
  apply list_elem_of_lookup in Hin as [k Hk].
  pose proof (lookup_lt_Some _ _ _ Hk) as Hlt.
  rewrite (is_wiring_length s Hw) in Hlt.
  exists (Z.of_nat k). split; [lia|]. by rewrite Nat2Z.id.
Qed.

End Wiring.

(** ** Evaluating [Step] on a well-formed rotor *)
Section StepEval.

Variable r : Rotor.t.
Hypothesis Hoffset : 0 <= Rotor.Offset r < 26.
Hypothesis Hring : 0 <= Rotor.Ring r < 26.

Lemma shifted_range x : 0 <= Spec.shifted (Rotor.Offset r) (Rotor.Ring r) x < 26.
Proof. clear Hoffset Hring. apply Z.mod_pos_bound. lia. Qed.

Lemma out_range n : 0 <= Spec.output (Rotor.Offset r) (Rotor.Ring r) n < 26.
Proof. clear Hoffset Hring. apply Z.mod_pos_bound. lia. Qed.

Lemma Step_number x :
  0 <= x < 26 ->
  int_rem (int_add (int_add (int_sub (ToInt (65 + x)) (Rotor.Ring r)) (Rotor.Offset r)) 26) 26
  = Spec.shifted (Rotor.Offset r) (Rotor.Ring r) x.
Proof.
  intros Hx. rewrite ToInt_small by lia.
  rewrite int_sub_small by lia.
  rewrite (int_add_small _ (Rotor.Offset r)) by lia.
  rewrite int_add_small by lia.
  rewrite int_rem_nonneg by lia.
  unfold Spec.shifted. f_equal. lia.
Qed.

Lemma Step_letter n :
  -1 <= n < 26 ->
  ToChar (int_rem (int_add (int_sub (int_add n (Rotor.Ring r)) (Rotor.Offset r)) 26) 26)
  = 65 + Spec.output (Rotor.Offset r) (Rotor.Ring r) n.
Proof.
  intros Hn. rewrite (int_add_small n) by lia.
  rewrite int_sub_small by lia. rewrite int_add_small by lia.
  rewrite int_rem_nonneg by lia.
  fold (Spec.output (Rotor.Offset r) (Rotor.Ring r) n).
  pose proof (out_range n).
  rewrite ToChar_small by lia. reflexivity.
Qed.

Lemma index_string_Some (s : string) i b (m : Rotor.mem) :
  0 <= i -> bytes s !! Z.to_nat i = Some b ->
  index_string s i m = (Returned b, m).
Proof.
  intros Hi Hb. unfold index_string, len.
  pose proof (lookup_lt_Some _ _ _ Hb) as Hlt.
  destruct (Z.leb_spec 0 i); [|lia].
  destruct (Z.ltb_spec i (Z.of_nat (List.length (bytes s)))); [|lia].
  simpl. by rewrite Hb.
Qed.

Lemma Step_forward x n :
  0 <= x < 26 -> 0 <= n < 26 ->
  bytes (Rotor.Sequence r) !! Z.to_nat (Spec.shifted (Rotor.Offset r) (Rotor.Ring r) x) = Some (65 + n) ->
  Rotor.Step false (Rotor.Mem r (65 + x)) = (Returned tt, Rotor.Mem r (65 + Spec.output (Rotor.Offset r) (Rotor.Ring r) n)).
Proof.
  intros Hx Hn Hlook.
  pose proof (shifted_range x) as Hs.
  unfold Rotor.Step, go_bind, go_read, go_write, go_ret, Rotor.set_letter.
  cbn [Rotor.this Rotor.letter].
  rewrite (Step_number x Hx).
  rewrite (index_string_Some _ _ _ _ (proj1 Hs) Hlook).
  unfold rune_of_byte. rewrite (ToInt_small (65 + n)) by lia.
  replace (65 + n - 65) with n by lia.
  cbn [Rotor.this Rotor.letter].
  rewrite (Step_letter n) by lia. reflexivity.
Qed.

Lemma Step_invert x i :
  0 <= x < 26 -> 0 <= i < 26 ->
  NoDup (bytes (Rotor.Sequence r)) ->
  bytes (Rotor.Sequence r) !! Z.to_nat i = Some (65 + Spec.shifted (Rotor.Offset r) (Rotor.Ring r) x) ->
  Rotor.Step true (Rotor.Mem r (65 + x)) = (Returned tt, Rotor.Mem r (65 + Spec.output (Rotor.Offset r) (Rotor.Ring r) i)).
Proof.
  intros Hx Hi Hnd Hlook.
  pose proof (shifted_range x) as Hs.
  unfold Rotor.Step, go_bind, go_read, go_write, go_ret, Rotor.set_letter.
  cbn [Rotor.this Rotor.letter].
  rewrite (Step_number x Hx).
  rewrite (ToChar_small (Spec.shifted (Rotor.Offset r) (Rotor.Ring r) x)) by lia.
  rewrite (IndexRune_NoDup _ (Z.to_nat i) (65 + Spec.shifted (Rotor.Offset r) (Rotor.Ring r) x)) by (done || lia).
  rewrite Z2Nat.id by lia.
  cbn [Rotor.this Rotor.letter].
  rewrite (Step_letter i) by lia. reflexivity.
Qed.

Lemma out_shifted x : 0 <= x < 26 -> Spec.output (Rotor.Offset r) (Rotor.Ring r) (Spec.shifted (Rotor.Offset r) (Rotor.Ring r) x) = x.
Proof.
  clear Hoffset Hring. intros Hx. unfold Spec.output, Spec.shifted.
  replace (((x - Rotor.Ring r + Rotor.Offset r + 26) mod 26) + Rotor.Ring r - Rotor.Offset r + 26)
    with (((x - Rotor.Ring r + Rotor.Offset r + 26) mod 26) + (Rotor.Ring r - Rotor.Offset r + 26)) by lia.
  rewrite Zplus_mod_idemp_l.
  replace (x - Rotor.Ring r + Rotor.Offset r + 26 + (Rotor.Ring r - Rotor.Offset r + 26))
    with (x + 2 * 26) by lia.
  rewrite Z_mod_plus_full. apply Z.mod_small. lia.
Qed.

Lemma shifted_out n : 0 <= n < 26 -> Spec.shifted (Rotor.Offset r) (Rotor.Ring r) (Spec.output (Rotor.Offset r) (Rotor.Ring r) n) = n.
Proof.
  clear Hoffset Hring. intros Hn. unfold Spec.output, Spec.shifted.
  replace (((n + Rotor.Ring r - Rotor.Offset r + 26) mod 26) - Rotor.Ring r + Rotor.Offset r + 26)
    with (((n + Rotor.Ring r - Rotor.Offset r + 26) mod 26) + (Rotor.Offset r - Rotor.Ring r + 26)) by lia.
  rewrite Zplus_mod_idemp_l.
  replace (n + Rotor.Ring r - Rotor.Offset r + 26 + (Rotor.Offset r - Rotor.Ring r + 26))
    with (n + 2 * 26) by lia.
  rewrite Z_mod_plus_full. apply Z.mod_small. lia.
Qed.

End StepEval.

(** ** The specification's lookups on a wiring *)
Section SpecLookup.

Lemma find_seq_first (f : nat -> bool) len : forall a k,
  (a <= k < a + len)%nat -> f k = true ->
  (forall j, (a <= j < k)%nat -> f j = false) ->
  List.find f (seq a len) = Some k.
Proof.
  induction len as [|len IH]; intros a k Hk Hfk Hfirst; [lia|].
  simpl. destruct (decide (a = k)) as [->|Hne].
  - by rewrite Hfk.
  - rewrite (Hfirst a) by lia. apply IH; [lia|done|].
    intros j Hj. apply Hfirst. lia.
Qed.

Lemma Spec_lookup_Some s i n :
  0 <= i -> bytes s !! Z.to_nat i = Some (65 + n) -> Spec.lookup s i = Some n.
Proof.
  intros Hi Hlook. unfold Spec.lookup, Spec.pos_of_letter.
  destruct (Z.leb_spec 0 i); [|lia]. rewrite Hlook. simpl. f_equal. lia.
Qed.

Lemma Spec_inverse_lookup_Some s i c :
  NoDup (bytes s) -> 0 <= i < 26 -> bytes s !! Z.to_nat i = Some c ->
  Spec.inverse_lookup s c = Some i.
Proof.
  intros Hnd Hi Hlook. unfold Spec.inverse_lookup.
  rewrite (find_seq_first _ 26 0 (Z.to_nat i)).
  - simpl. f_equal. lia.
  - lia.
  - by apply bool_decide_eq_true.
  - intros j Hj. apply bool_decide_eq_false. apply (NoDup_first _ (Z.to_nat i)); [done..|lia].
Qed.

(** Only the difference of offset and ring, modulo 26, enters the index
    arithmetic. *)
Lemma Spec_shifted_difference o r x :
  Spec.shifted o r x = (x + (o - r) mod 26) mod 26.
Proof.
  unfold Spec.shifted. rewrite Zplus_mod_idemp_r.
  replace (x - r + o + 26) with (x + (o - r) + 1 * 26) by lia.
  apply Z_mod_plus_full.
Qed.

Lemma Spec_output_difference o r n :
  Spec.output o r n = (n - (o - r) mod 26) mod 26.
Proof.
  unfold Spec.output. rewrite Zminus_mod_idemp_r.
  replace (n + r - o + 26) with (n - (o - r) + 1 * 26) by lia.
  apply Z_mod_plus_full.
Qed.

Lemma Spec_Step_difference s o1 r1 o2 r2 invert x :
  (o1 - r1) mod 26 = (o2 - r2) mod 26 ->
  Spec.Step s o1 r1 invert x = Spec.Step s o2 r2 invert x.
Proof.
  intros Hd. unfold Spec.Step.
  rewrite (Spec_shifted_difference o1), (Spec_shifted_difference o2), Hd.
  destruct (if invert then _ else _); simpl; [|done].
  by rewrite (Spec_output_difference o1), (Spec_output_difference o2), Hd.
Qed.

(** On a well-formed rotor the code and the specification's arithmetic
    agree, and both are defined. *)
Lemma Step_eval (r : Rotor.t) (invert : bool) (x : Z) :
  is_wiring (Rotor.Sequence r) = true ->
  0 <= Rotor.Offset r < 26 -> 0 <= Rotor.Ring r < 26 -> 0 <= x < 26 ->
  exists y, 0 <= y < 26 /\
    Spec.Step (Rotor.Sequence r) (Rotor.Offset r) (Rotor.Ring r) invert x = Some y /\
    Rotor.Step invert (Rotor.Mem r (65 + x)) = (Returned tt, Rotor.Mem r (65 + y)).
Proof.
  intros Hw Ho Hr Hx.
  pose proof (shifted_range r x) as Hs.
  unfold Spec.Step. destruct invert.
  - destruct (is_wiring_find _ _ Hw Hs) as (i & Hi & Hlook).
    exists (Spec.output (Rotor.Offset r) (Rotor.Ring r) i).
    split; [by apply out_range|]. split.
    + unfold Spec.letter_of_pos.
      by rewrite (Spec_inverse_lookup_Some _ i _ (is_wiring_NoDup _ Hw) Hi Hlook).
    + apply Step_invert; auto using is_wiring_NoDup.
  - destruct (is_wiring_lookup _ _ Hw Hs) as (n & Hn & Hlook).
    exists (Spec.output (Rotor.Offset r) (Rotor.Ring r) n).
    split; [by apply out_range|]. split.
    + by rewrite (Spec_lookup_Some _ _ n (proj1 Hs) Hlook).
    + by apply Step_forward.
Qed.

End SpecLookup.

(** ** Rotor.Step *)

(** Rotor "I" at offset 0 and ring 0 sends A forward to E, and reflector
    "B" sends A to Y. *)
Example Step_I_A :
  Rotor.Step false (Rotor.Mem (NewRotor "EKMFLGDQVZNTOWYHXUSPAIBRCJ" [rune_lit "Q"]) 65)
  = (Returned tt, Rotor.Mem (NewRotor "EKMFLGDQVZNTOWYHXUSPAIBRCJ" [rune_lit "Q"]) 69).
Proof. reflexivity. Qed.

Example Reflect_B_A :
  Reflector.Reflect (Reflector.Mem (Reflector.mk "YRUHQSLDPXNGOKMIEBFZCWVJAT") 65)
  = (Returned tt, Reflector.Mem (Reflector.mk "YRUHQSLDPXNGOKMIEBFZCWVJAT") 89).
Proof. reflexivity. Qed.

(** A forward step past the end of the wiring panics and writes nothing. *)
Example Step_short_wiring :
  Rotor.Step false (Rotor.Mem (NewRotor "ABC" []) 70)
  = (Panicked, Rotor.Mem (NewRotor "ABC" []) 70).
Proof. reflexivity. Qed.

(** C7 (frame property of [Step]): whatever the rotor, the letter and the
    direction, [Step] leaves the receiver's fields [Sequence], [Offset],
    [Ring] and [Notch] as they were; the only store it writes is the
    letter cell, and a call that panics writes nothing at all. *)
Theorem Step_frame (invert : bool) (m : Rotor.mem) :
  Rotor.this (snd (Rotor.Step invert m)) = Rotor.this m /\
  (fst (Rotor.Step invert m) = Returned tt \/ Rotor.Step invert m = (Panicked, m)).
Proof.
  destruct m as [r l]. unfold Rotor.Step, go_bind, go_read, go_write, go_ret.
  cbn [Rotor.this Rotor.letter]. destruct invert.
  - split; [reflexivity|]. by left.
  - unfold index_string, go_ret, go_panic.
    repeat (case_match; cbn [fst snd Rotor.this Rotor.set_letter]);
      simplify_eq; split; auto.
Qed.

(** C1 (rotor round trip): on a rotor whose wiring is a 26-letter
    permutation, with offset and ring in [0,26), stepping a letter forward
    and then stepping the result backwards, the rotor untouched in between,
    gives the letter back. *)
Theorem Step_round_trip (r : Rotor.t) (x : Z) :
  is_wiring (Rotor.Sequence r) = true ->
  0 <= Rotor.Offset r < 26 -> 0 <= Rotor.Ring r < 26 -> 0 <= x < 26 ->
  (Rotor.Step false ;;; Rotor.Step true) (Rotor.Mem r (ToChar x))
  = (Returned tt, Rotor.Mem r (ToChar x)).
Proof.
  intros Hw Ho Hr Hx. rewrite ToChar_small by lia.
  pose proof (shifted_range r x) as Hs.
  destruct (is_wiring_lookup _ _ Hw Hs) as (n & Hn & Hlook).
  unfold go_bind at 1.
  rewrite (Step_forward r Ho Hr x n Hx Hn Hlook).
  pose proof (out_range r n) as Hout.
  rewrite (Step_invert r Ho Hr _ (Spec.shifted (Rotor.Offset r) (Rotor.Ring r) x) Hout Hs).
  - by rewrite out_shifted.
  - by apply is_wiring_NoDup.
  - by rewrite shifted_out.
Qed.

Lemma Step_round_trip_witness :
  (Rotor.Step false ;;; Rotor.Step true)
    (Rotor.Mem (Rotor.mk "EKMFLGDQVZNTOWYHXUSPAIBRCJ" 3 7 ∅) (ToChar 5))
  = (Returned tt, Rotor.Mem (Rotor.mk "EKMFLGDQVZNTOWYHXUSPAIBRCJ" 3 7 ∅) (ToChar 5)).
Proof.
  apply (Step_round_trip (Rotor.mk "EKMFLGDQVZNTOWYHXUSPAIBRCJ" 3 7 ∅) 5);
    [reflexivity | simpl; lia | simpl; lia | lia].
Defined.

(** C2, as stated for every rotor, fails.  With ring 30 (or offset -30)
    the sum [x - ring + offset + 26] is negative, Go's [%] gives -4 where
    the specification's [mod] gives 22, and the forward [Step] panics
    where the specification's arithmetic yields position 5; the inverse
    [Step] writes D where it yields position 17.  On the wiring "ABC" no
    index holds the shifted letter K, and the inverse [Step] writes Z all
    the same. *)
Lemma Step_not_spec_for_every_rotor :
  (Spec.Step "EKMFLGDQVZNTOWYHXUSPAIBRCJ" 0 30 false 0 = Some 5 /\
   Rotor.Step false (Rotor.Mem (Rotor.mk "EKMFLGDQVZNTOWYHXUSPAIBRCJ" 0 30 ∅) (ToChar 0))
   = (Panicked, Rotor.Mem (Rotor.mk "EKMFLGDQVZNTOWYHXUSPAIBRCJ" 0 30 ∅) (ToChar 0))) /\
  (Spec.Step "EKMFLGDQVZNTOWYHXUSPAIBRCJ" 0 30 true 0 = Some 17 /\
   Rotor.Step true (Rotor.Mem (Rotor.mk "EKMFLGDQVZNTOWYHXUSPAIBRCJ" 0 30 ∅) (ToChar 0))
   = (Returned tt, Rotor.Mem (Rotor.mk "EKMFLGDQVZNTOWYHXUSPAIBRCJ" 0 30 ∅) (ToChar 3))) /\
  (Spec.Step "EKMFLGDQVZNTOWYHXUSPAIBRCJ" (-30) 0 false 0 = Some 5 /\
   Rotor.Step false (Rotor.Mem (Rotor.mk "EKMFLGDQVZNTOWYHXUSPAIBRCJ" (-30) 0 ∅) (ToChar 0))
   = (Panicked, Rotor.Mem (Rotor.mk "EKMFLGDQVZNTOWYHXUSPAIBRCJ" (-30) 0 ∅) (ToChar 0))) /\
  (Spec.Step "ABC" 0 0 true 10 = None /\
   Rotor.Step true (Rotor.Mem (Rotor.mk "ABC" 0 0 ∅) (ToChar 10))
   = (Returned tt, Rotor.Mem (Rotor.mk "ABC" 0 0 ∅) (ToChar 25))).
Proof. repeat split; reflexivity. Qed.

(** C2, amended (index arithmetic of [Step] on a well-formed rotor): on a
    rotor with a 26-letter permutation wiring and offset and ring in
    [0,26), and a letter position [x] in [0,26), [Step] computes what the
    specification's three steps compute: [shifted = (x - ring + offset + 26) mod 26], then the
    position of [sequence[shifted]] (forward) or the index holding the
    letter of [shifted] (inverse), then [(n + ring - offset + 26) mod 26]. *)
Theorem Step_refines_spec (r : Rotor.t) (invert : bool) (x : Z) :
  is_wiring (Rotor.Sequence r) = true ->
  0 <= Rotor.Offset r < 26 -> 0 <= Rotor.Ring r < 26 -> 0 <= x < 26 ->
  exists y,
    Spec.Step (Rotor.Sequence r) (Rotor.Offset r) (Rotor.Ring r) invert x = Some y /\
    Rotor.Step invert (Rotor.Mem r (ToChar x)) = (Returned tt, Rotor.Mem r (ToChar y)).
Proof.
  intros Hw Ho Hr Hx.
  destruct (Step_eval r invert x Hw Ho Hr Hx) as (y & Hy & Hspec & Hcode).
  exists y. split; [done|]. by rewrite !ToChar_small by lia.
Qed.

Lemma Step_refines_spec_witness :
  exists y,
    Spec.Step "EKMFLGDQVZNTOWYHXUSPAIBRCJ" 3 7 true 5 = Some y /\
    Rotor.Step true (Rotor.Mem (Rotor.mk "EKMFLGDQVZNTOWYHXUSPAIBRCJ" 3 7 ∅) (ToChar 5))
    = (Returned tt, Rotor.Mem (Rotor.mk "EKMFLGDQVZNTOWYHXUSPAIBRCJ" 3 7 ∅) (ToChar y)).
Proof.
  apply (Step_refines_spec (Rotor.mk "EKMFLGDQVZNTOWYHXUSPAIBRCJ" 3 7 ∅) true 5);
    [reflexivity | simpl; lia | simpl; lia | lia].
Defined.

(** C9 ([Step] sees only the difference of offset and ring): two rotors
    with the same permutation wiring, offsets and rings in [0,26) and
    [(offset1 - ring1) mod 26 = (offset2 - ring2) mod 26] return, and give
    the same output letter, for every direction and every letter. *)
Theorem Step_offset_ring_difference (r1 r2 : Rotor.t) (invert : bool) (x : Z) :
  Rotor.Sequence r1 = Rotor.Sequence r2 ->
  is_wiring (Rotor.Sequence r1) = true ->
  0 <= Rotor.Offset r1 < 26 -> 0 <= Rotor.Ring r1 < 26 ->
  0 <= Rotor.Offset r2 < 26 -> 0 <= Rotor.Ring r2 < 26 ->
  0 <= x < 26 ->
  (Rotor.Offset r1 - Rotor.Ring r1) mod 26 = (Rotor.Offset r2 - Rotor.Ring r2) mod 26 ->
  exists y,
    Rotor.Step invert (Rotor.Mem r1 (ToChar x)) = (Returned tt, Rotor.Mem r1 y) /\
    Rotor.Step invert (Rotor.Mem r2 (ToChar x)) = (Returned tt, Rotor.Mem r2 y).
Proof.
  intros Hseq Hw1 Ho1 Hr1 Ho2 Hr2 Hx Hd.
  assert (Hw2 : is_wiring (Rotor.Sequence r2) = true) by (by rewrite <- Hseq).
  destruct (Step_eval r1 invert x Hw1 Ho1 Hr1 Hx) as (y1 & _ & Hspec1 & Hcode1).
  destruct (Step_eval r2 invert x Hw2 Ho2 Hr2 Hx) as (y2 & _ & Hspec2 & Hcode2).
  rewrite Hseq, (Spec_Step_difference _ _ _ _ _ invert x Hd), Hspec2 in Hspec1.
  injection Hspec1 as <-.
  exists (65 + y2). by rewrite ToChar_small by lia.
Qed.

Lemma Step_offset_ring_difference_witness :
  exists y,
    Rotor.Step false (Rotor.Mem (Rotor.mk "EKMFLGDQVZNTOWYHXUSPAIBRCJ" 2 25 ∅) (ToChar 5))
    = (Returned tt, Rotor.Mem (Rotor.mk "EKMFLGDQVZNTOWYHXUSPAIBRCJ" 2 25 ∅) y) /\
    Rotor.Step false (Rotor.Mem (Rotor.mk "EKMFLGDQVZNTOWYHXUSPAIBRCJ" 20 17 ∅) (ToChar 5))
    = (Returned tt, Rotor.Mem (Rotor.mk "EKMFLGDQVZNTOWYHXUSPAIBRCJ" 20 17 ∅) y).
Proof.
  apply (Step_offset_ring_difference
           (Rotor.mk "EKMFLGDQVZNTOWYHXUSPAIBRCJ" 2 25 ∅)
           (Rotor.mk "EKMFLGDQVZNTOWYHXUSPAIBRCJ" 20 17 ∅) false 5);
    [reflexivity | reflexivity | simpl; lia | simpl; lia | simpl; lia | simpl; lia
    | lia | reflexivity].
Defined.

(** ** Reflector.Reflect *)
Section ReflectEval.

Lemma IndexByte_from_spec l : forall i c,
  exists n, strings.IndexByte_from i l c = n /\
    ((n = -1 /\ c ∉ l) \/
     (exists k, n = i + Z.of_nat k /\ l !! k = Some c /\
                forall j, (j < k)%nat -> l !! j <> Some c)).
Proof.
  induction l as [|b l IH]; intros i c.
  - exists (-1). split; [done|]. left. split; [done|]. apply not_elem_of_nil.
  - simpl. destruct (Z.eqb_spec b c) as [->|Hne].
    + exists i. split; [done|]. right. exists 0%nat.
      split; [lia|]. split; [done|]. intros j Hj. lia.
    + destruct (IH (i + 1) c) as (n & Hn & [[-> Hc]|(k & -> & Hk & Hfirst)]).
      * exists (-1). split; [done|]. left. split; [done|].
        apply not_elem_of_cons. done.
      * exists (i + 1 + Z.of_nat k). split; [done|]. right. exists (S k).
        split; [lia|]. split; [done|].
        intros [|j] Hj; simpl; [congruence|]. apply Hfirst. lia.
Qed.

Lemma Reflect_eval (r : Reflector.t) (x : Z) :
  Reflector.Reflect (Reflector.Mem r x)
  = (Returned tt, Reflector.Mem r (ToChar (strings.IndexRune (Reflector.Sequence r) x))).
Proof. reflexivity. Qed.

Lemma is_involution_wiring s : is_involution s = true -> is_wiring s = true.
Proof. unfold is_involution. by intros [Hw _]%andb_prop. Qed.

Lemma is_involution_lookup s (i : nat) c :
  is_involution s = true -> bytes s !! i = Some c ->
  bytes s !! Z.to_nat (c - 65) = Some (65 + Z.of_nat i).
Proof.
  unfold is_involution. intros [Hw Hall]%andb_prop Hlook.
  rewrite forallb_forall in Hall.
  pose proof (lookup_lt_Some _ _ _ Hlook) as Hlt.
  rewrite (is_wiring_length s Hw) in Hlt.
  assert (Hin : In i (seq 0 26)) by (apply in_seq; lia).
  specialize (Hall i Hin). rewrite Hlook in Hall.
  by apply bool_decide_eq_true in Hall.
Qed.

(** On a permutation wiring [Reflect] returns the position at which the
    letter stands. *)
Lemma Reflect_wiring (r : Reflector.t) (x : Z) (k : nat) :
  is_wiring (Reflector.Sequence r) = true ->
  bytes (Reflector.Sequence r) !! k = Some x ->
  Reflector.Reflect (Reflector.Mem r x) = (Returned tt, Reflector.Mem r (65 + Z.of_nat k)).
Proof.
  intros Hw Hlook. rewrite Reflect_eval.
  assert (Hx : 65 <= x <= 90).
  { apply (is_wiring_elem _ x Hw), list_elem_of_lookup. eauto. }
  pose proof (lookup_lt_Some _ _ _ Hlook) as Hlt.
  rewrite (is_wiring_length _ Hw) in Hlt.
  rewrite (IndexRune_NoDup _ k x) by (lia || auto using is_wiring_NoDup).
  by rewrite ToChar_small by lia.
Qed.

Lemma Reflect_involution (r : Reflector.t) (x : Z) :
  is_involution (Reflector.Sequence r) = true -> 65 <= x <= 90 ->
  exists y, 65 <= y <= 90 /\
    bytes (Reflector.Sequence r) !! Z.to_nat (x - 65) = Some y /\
    Reflector.Reflect (Reflector.Mem r x) = (Returned tt, Reflector.Mem r y) /\
    Reflector.Reflect (Reflector.Mem r y) = (Returned tt, Reflector.Mem r x).
Proof.
  intros Hinv Hx. pose proof (is_involution_wiring _ Hinv) as Hw.
  destruct (is_wiring_find _ (x - 65) Hw ltac:(lia)) as (i & Hi & Hlook).
  replace (65 + (x - 65)) with x in Hlook by lia.
  pose proof (is_involution_lookup _ _ _ Hinv Hlook) as Hback.
  rewrite Z2Nat.id in Hback by lia.
  exists (65 + i). split; [lia|]. split; [done|]. split.
  - rewrite (Reflect_wiring r x (Z.to_nat i) Hw Hlook). by rewrite Z2Nat.id by lia.
  - rewrite (Reflect_wiring r (65 + i) (Z.to_nat (x - 65)) Hw Hback).
    rewrite Z2Nat.id by lia. do 3 f_equal. lia.
Qed.

End ReflectEval.

(** ** The catalogs *)
Section Catalogs.

Lemma Rotors_dom : dom Rotors = list_to_set rotor_ids.
Proof. unfold Rotors. by rewrite dom_list_to_map_L. Qed.

Lemma Reflectors_dom : dom Reflectors = list_to_set reflector_ids.
Proof. unfold Reflectors. by rewrite dom_list_to_map_L. Qed.

Lemma Rotors_entry id r : Rotors !! id = Some r -> (id, r) ∈ Rotors_entries.
Proof. apply elem_of_list_to_map_2. Qed.

Lemma Reflectors_entry id r : Reflectors !! id = Some r -> (id, r) ∈ Reflectors_entries.
Proof. apply elem_of_list_to_map_2. Qed.

Lemma Rotors_Forall (P : Rotor.t -> Prop) :
  Forall (fun e => P e.2) Rotors_entries -> forall id r, Rotors !! id = Some r -> P r.
Proof.
  intros Hall id r Hr%Rotors_entry.
  rewrite Forall_forall in Hall. apply (Hall _ Hr).
Qed.

Lemma Reflectors_Forall (P : Reflector.t -> Prop) :
  Forall (fun e => P e.2) Reflectors_entries ->
  forall id r, Reflectors !! id = Some r -> P r.
Proof.
  intros Hall id r Hr%Reflectors_entry.
  rewrite Forall_forall in Hall. apply (Hall _ Hr).
Qed.

Lemma Rotors_wirings id r : Rotors !! id = Some r -> is_wiring (Rotor.Sequence r) = true.
Proof.
  apply (Rotors_Forall (fun r => is_wiring (Rotor.Sequence r) = true)).
  repeat constructor.
Qed.

Lemma Reflectors_involutions id r :
  Reflectors !! id = Some r -> is_involution (Reflector.Sequence r) = true.
Proof.
  apply (Reflectors_Forall (fun r => is_involution (Reflector.Sequence r) = true)).
  repeat constructor.
Qed.

Lemma Rotors_lookup_ids id : is_Some (Rotors !! id) <-> id ∈ rotor_ids.
Proof. by rewrite <- elem_of_dom, Rotors_dom, elem_of_list_to_set. Qed.

Lemma Reflectors_lookup_ids id : is_Some (Reflectors !! id) <-> id ∈ reflector_ids.
Proof. by rewrite <- elem_of_dom, Reflectors_dom, elem_of_list_to_set. Qed.

End Catalogs.

(** ** Claims about the reflector *)

(** C3 (catalog reflectors are involutions): for each of the five catalog
    reflectors "A", "B", "C", "B-Thin", "C-Thin" and each of the 26
    letters, reflecting and then reflecting the result gives the letter
    back. *)
Theorem Reflect_twice (id : string) (x : Z) :
  id ∈ reflector_ids -> 65 <= x <= 90 ->
  exists r, Reflectors !! id = Some r /\
    (Reflector.Reflect ;;; Reflector.Reflect) (Reflector.Mem r x)
    = (Returned tt, Reflector.Mem r x).
Proof.
  intros [r Hr]%Reflectors_lookup_ids Hx. exists r. split; [done|].
  destruct (Reflect_involution r x (Reflectors_involutions _ _ Hr) Hx)
    as (y & _ & _ & Hfst & Hsnd).
  unfold go_bind. by rewrite Hfst.
Qed.

Lemma Reflect_twice_witness :
  exists r, Reflectors !! "B-Thin" = Some r /\
    (Reflector.Reflect ;;; Reflector.Reflect) (Reflector.Mem r 75)
    = (Returned tt, Reflector.Mem r 75).
Proof.
  apply (Reflect_twice "B-Thin" 75); [|lia].
  apply (bool_decide_unpack _). by vm_compute.
Defined.

(** C4, as stated, fails: on a reflector wired "EKMFLGDQVZNTOWYHXUSPAIBRCJ"
    the letter A is reflected to U, the letter of the position where A
    stands, while the table holds E at A's position. *)
Lemma Reflect_not_forward_lookup :
  Reflector.Reflect (Reflector.Mem skew_reflector 65)
  = (Returned tt, Reflector.Mem skew_reflector 85) /\
  bytes (Reflector.Sequence skew_reflector) !! Z.to_nat (ToInt 65) = Some 69 /\
  Some (Reflector.letter (snd (Reflector.Reflect (Reflector.Mem skew_reflector 65))))
  <> bytes (Reflector.Sequence skew_reflector) !! Z.to_nat (ToInt 65).
Proof. split; [reflexivity|]. split; [reflexivity|]. vm_compute. discriminate. Qed.

(** C4, amended ([Reflect] is an inverse table lookup): for every
    reflector and every letter A-Z, [Reflect] leaves the reflector as it
    was and writes [ToChar n], where [n] is the first index at which the
    wiring holds the letter (or -1 when it holds it nowhere); when the
    wiring is an involution this is the letter the table holds at the
    input letter's position. *)
Theorem Reflect_inverse_lookup (r : Reflector.t) (x : Z) :
  65 <= x <= 90 ->
  exists n,
    Reflector.Reflect (Reflector.Mem r x) = (Returned tt, Reflector.Mem r (ToChar n)) /\
    ((n = -1 /\ x ∉ bytes (Reflector.Sequence r)) \/
     (0 <= n /\ bytes (Reflector.Sequence r) !! Z.to_nat n = Some x /\
      forall j, (j < Z.to_nat n)%nat -> bytes (Reflector.Sequence r) !! j <> Some x)) /\
    (is_involution (Reflector.Sequence r) = true ->
     bytes (Reflector.Sequence r) !! Z.to_nat (ToInt x) = Some (ToChar n)).
Proof.
  intros Hx. exists (strings.IndexRune (Reflector.Sequence r) x).
  split; [apply Reflect_eval|]. split.
  - rewrite IndexRune_ascii by lia. unfold strings.IndexByte.
    destruct (IndexByte_from_spec (bytes (Reflector.Sequence r)) 0 x)
      as (n & -> & [[-> Hno]|(k & -> & Hk & Hfirst)]); [by left|right].
    rewrite Z.add_0_l, Nat2Z.id. split; [lia|done].
  - intros Hinv.
    destruct (Reflect_involution r x Hinv Hx) as (y & _ & Hy & Hfst & _).
    rewrite Reflect_eval in Hfst. injection Hfst as ->.
    by rewrite ToInt_small by lia.
Qed.

Lemma Reflect_inverse_lookup_witness :
  exists n,
    Reflector.Reflect (Reflector.Mem skew_reflector 65)
    = (Returned tt, Reflector.Mem skew_reflector (ToChar n)) /\
    ((n = -1 /\ 65 ∉ bytes (Reflector.Sequence skew_reflector)) \/
     (0 <= n /\ bytes (Reflector.Sequence skew_reflector) !! Z.to_nat n = Some 65 /\
      forall j, (j < Z.to_nat n)%nat ->
                bytes (Reflector.Sequence skew_reflector) !! j <> Some 65)) /\
    (is_involution (Reflector.Sequence skew_reflector) = true ->
     bytes (Reflector.Sequence skew_reflector) !! Z.to_nat (ToInt 65) = Some (ToChar n)).
Proof. apply (Reflect_inverse_lookup skew_reflector 65). lia. Defined.

(** ** Claims about the catalogs *)

(** C5 (permutation closure): each of the ten catalog rotors has a wiring
    of length 26 in which each of the letters A-Z occurs exactly once. *)
Theorem Rotors_permutation_closure (id : string) (c : Z) :
  id ∈ rotor_ids -> 65 <= c <= 90 ->
  exists r, Rotors !! id = Some r /\
    len (Rotor.Sequence r) = 26 /\
    count_occ Z.eq_dec (bytes (Rotor.Sequence r)) c = 1%nat.
Proof.
  intros [r Hr]%Rotors_lookup_ids Hc. exists r. split; [done|].
  pose proof (Rotors_wirings _ _ Hr) as Hw. split.
  - unfold len. by rewrite (is_wiring_length _ Hw).
  - by apply is_wiring_count.
Qed.

Lemma Rotors_permutation_closure_witness :
  exists r, Rotors !! "VII" = Some r /\
    len (Rotor.Sequence r) = 26 /\
    count_occ Z.eq_dec (bytes (Rotor.Sequence r)) 77 = 1%nat.
Proof.
  apply (Rotors_permutation_closure "VII" 77); [|lia].
  apply (bool_decide_unpack _). by vm_compute.
Defined.

(** C8 (catalog contents and lookup miss): [Rotors] has entries for exactly
    "I".."VIII", "Beta", "Gamma" and [Reflectors] for exactly "A", "B",
    "C", "B-Thin", "C-Thin"; any other identifier is a lookup miss; every
    stored rotor has offset 0 and ring 0. *)
Theorem catalog_contents (id : string) :
  (is_Some (Rotors !! id) <-> id ∈ rotor_ids) /\
  (is_Some (Reflectors !! id) <-> id ∈ reflector_ids) /\
  (id ∉ rotor_ids -> Rotors !! id = None /\ snd (Rotors_index id) = false) /\
  (id ∉ reflector_ids -> Reflectors !! id = None /\ snd (Reflectors_index id) = false) /\
  (forall r, Rotors !! id = Some r -> Rotor.Offset r = 0 /\ Rotor.Ring r = 0).
Proof.
  split; [apply Rotors_lookup_ids|]. split; [apply Reflectors_lookup_ids|].
  split; [|split].
  - intros Hid. assert (Hnone : Rotors !! id = None).
    { apply eq_None_not_Some. by rewrite Rotors_lookup_ids. }
    unfold Rotors_index. by rewrite Hnone.
  - intros Hid. assert (Hnone : Reflectors !! id = None).
    { apply eq_None_not_Some. by rewrite Reflectors_lookup_ids. }
    unfold Reflectors_index. by rewrite Hnone.
  - apply (Rotors_Forall (fun r => Rotor.Offset r = 0 /\ Rotor.Ring r = 0)).
    repeat constructor.
Qed.

Lemma catalog_contents_witness :
  (Rotors !! "IX" = None /\ snd (Rotors_index "IX") = false) /\
  (Reflectors !! "D" = None /\ snd (Reflectors_index "D") = false) /\
  is_Some (Rotors !! "Gamma") /\ is_Some (Reflectors !! "C-Thin").
Proof.
  split; [|split; [|split]].
  - apply (catalog_contents "IX"). apply (bool_decide_unpack _). by vm_compute.
  - apply (catalog_contents "D"). apply (bool_decide_unpack _). by vm_compute.
  - apply (catalog_contents "Gamma"). apply (bool_decide_unpack _). by vm_compute.
  - apply (catalog_contents "C-Thin"). apply (bool_decide_unpack _). by vm_compute.
Defined.

(** ** Claims about notches *)

Lemma Rotors_I :
  Rotors !! "I" = Some (NewRotor "EKMFLGDQVZNTOWYHXUSPAIBRCJ" [rune_lit "Q"]).
Proof. reflexivity. Qed.

Lemma Rotors_Beta : Rotors !! "Beta" = Some (NewRotor "LEYJVCNIXWPBQMDRTAKZGFUHOS" []).
Proof. reflexivity. Qed.

Lemma Rotors_Gamma : Rotors !! "Gamma" = Some (NewRotor "FSOKANUERHMBTIYCWLQPZXVGJD" []).
Proof. reflexivity. Qed.

(** C6 (notch of rotor "I"): the catalog rotor "I" has the notch set {Q},
    and put at any offset and ring in [0,26) the notch test is true exactly
    at offset 16, the position of Q. *)
Theorem rotor_I_notch (offset ring : Z) :
  0 <= offset < 26 -> 0 <= ring < 26 ->
  exists r, Rotors !! "I" = Some r /\
    Rotor.Notch r = {[ rune_lit "Q" := true ]} /\
    (AtNotch (with_position r offset ring) = true <-> offset = 16).
Proof.
  intros Ho Hr. eexists. split; [apply Rotors_I|].
  split; [apply insert_empty|].
  unfold AtNotch, with_position, map_read.
  cbn [Rotor.Notch Rotor.Offset NewRotor foldl].
  rewrite insert_empty, ToChar_small by lia.
  change (rune_lit "Q") with 81.
  destruct (decide (81 = 65 + offset)) as [Heq|Hne].
  - rewrite <- Heq, lookup_singleton_eq. simpl. split; [lia|done].
  - rewrite lookup_singleton_ne by done. simpl. split; [done|lia].
Qed.

Lemma rotor_I_notch_witness :
  exists r, Rotors !! "I" = Some r /\
    Rotor.Notch r = {[ rune_lit "Q" := true ]} /\
    (AtNotch (with_position r 16 4) = true <-> 16 = 16).
Proof. apply (rotor_I_notch 16 4); lia. Defined.

(** C10 (no notch on "Beta" and "Gamma"): the catalog rotors "Beta" and
    "Gamma" have empty notch sets, so no letter is a member and the notch
    test is false at every offset and ring. *)
Theorem Beta_Gamma_no_notch (id : string) (offset ring c : Z) :
  id = "Beta" \/ id = "Gamma" ->
  exists r, Rotors !! id = Some r /\
    Rotor.Notch r = ∅ /\
    map_read (Rotor.Notch r) c = false /\
    AtNotch (with_position r offset ring) = false.
Proof.
  intros [-> | ->]; eexists;
    (split; [first [apply Rotors_Beta | apply Rotors_Gamma]|]);
    (split; [reflexivity|]);
    unfold AtNotch, with_position, map_read;
    cbn [Rotor.Notch Rotor.Offset NewRotor foldl];
    by rewrite !lookup_empty.
Qed.

Lemma Beta_Gamma_no_notch_witness :
  exists r, Rotors !! "Beta" = Some r /\
    Rotor.Notch r = ∅ /\
    map_read (Rotor.Notch r) 81 = false /\
    AtNotch (with_position r 16 0) = false.
Proof. apply (Beta_Gamma_no_notch "Beta" 16 0 81). by left. Defined.

(** * Further properties of the code *)

(** ** Helpers *)
Section More.

Lemma go_bind_returned {S A B} (m : Go S A) (k : A -> Go S B) s a s' :
  m s = (Returned a, s') -> go_bind m k s = k a s'.
Proof. intros Hm. unfold go_bind. by rewrite Hm. Qed.

Lemma IndexByte_from_absent l : forall i c,
  c ∉ l -> strings.IndexByte_from i l c = -1.
Proof.
  induction l as [|b l IH]; intros i c Hc; [done|]. simpl.
  apply not_elem_of_cons in Hc as [Hne Hc].
  destruct (Z.eqb_spec b c); [congruence|]. by apply IH.
Qed.

Lemma Rotor_ok_unfold r :
  Rotor_ok r = true ->
  is_wiring (Rotor.Sequence r) = true /\
  0 <= Rotor.Offset r < 26 /\ 0 <= Rotor.Ring r < 26.
Proof.
  unfold Rotor_ok. rewrite !andb_true_iff.
  intros ((((Hw & H1) & H2) & H3) & H4). split; [done|]. lia.
Qed.

(** Either direction of [Step] on a well-formed rotor returns a letter,
    and the other direction takes that letter back. *)
Lemma Step_undo (r : Rotor.t) (invert : bool) (l : Z) :
  is_wiring (Rotor.Sequence r) = true ->
  0 <= Rotor.Offset r < 26 -> 0 <= Rotor.Ring r < 26 -> 65 <= l <= 90 ->
  exists y, 65 <= y <= 90 /\
    Rotor.Step invert (Rotor.Mem r l) = (Returned tt, Rotor.Mem r y) /\
    Rotor.Step (negb invert) (Rotor.Mem r y) = (Returned tt, Rotor.Mem r l).
Proof.
  intros Hw Ho Hr Hl.
  replace l with (65 + (l - 65)) by lia.
  assert (Hx : 0 <= l - 65 < 26) by lia. revert Hx. generalize (l - 65) as x.
  clear l Hl. intros x Hx.
  pose proof (shifted_range r x) as Hs.
  pose proof (is_wiring_NoDup _ Hw) as Hnd.
  destruct invert; simpl.
  - destruct (is_wiring_find _ _ Hw Hs) as (i & Hi & Hlook).
    pose proof (out_range r i) as Hout.
    exists (65 + Spec.output (Rotor.Offset r) (Rotor.Ring r) i).
    split; [lia|]. split; [by apply Step_invert|].
    rewrite (Step_forward r Ho Hr _ (Spec.shifted (Rotor.Offset r) (Rotor.Ring r) x) Hout Hs).
    + by rewrite out_shifted.
    + by rewrite shifted_out.
  - destruct (is_wiring_lookup _ _ Hw Hs) as (n & Hn & Hlook).
    pose proof (out_range r n) as Hout.
    exists (65 + Spec.output (Rotor.Offset r) (Rotor.Ring r) n).
    split; [lia|]. split; [by apply Step_forward|].
    rewrite (Step_invert r Ho Hr _ (Spec.shifted (Rotor.Offset r) (Rotor.Ring r) x) Hout Hs Hnd).
    + by rewrite out_shifted.
    + by rewrite shifted_out.
Qed.

End More.

(** ** More on Rotor.Step *)

(** X1 (round trip, inverse first): on a well-formed rotor, stepping a
    letter backwards and then stepping the result forward gives the letter
    back. *)
Theorem Step_inverse_then_forward (r : Rotor.t) (x : Z) :
  is_wiring (Rotor.Sequence r) = true ->
  0 <= Rotor.Offset r < 26 -> 0 <= Rotor.Ring r < 26 -> 0 <= x < 26 ->
  (Rotor.Step true ;;; Rotor.Step false) (Rotor.Mem r (ToChar x))
  = (Returned tt, Rotor.Mem r (ToChar x)).
Proof.
  intros Hw Ho Hr Hx. rewrite ToChar_small by lia.
  destruct (Step_undo r true (65 + x) Hw Ho Hr ltac:(lia)) as (y & _ & Hgo & Hback).
  by rewrite (go_bind_returned _ _ _ _ _ Hgo).
Qed.

Lemma Step_inverse_then_forward_witness :
  (Rotor.Step true ;;; Rotor.Step false)
    (Rotor.Mem (Rotor.mk "AJDKSIRUXBLHWTMCQGZNPYFVOE" 11 25 ∅) (ToChar 19))
  = (Returned tt, Rotor.Mem (Rotor.mk "AJDKSIRUXBLHWTMCQGZNPYFVOE" 11 25 ∅) (ToChar 19)).
Proof.
  apply (Step_inverse_then_forward (Rotor.mk "AJDKSIRUXBLHWTMCQGZNPYFVOE" 11 25 ∅) 19);
    [reflexivity | simpl; lia | simpl; lia | lia].
Defined.

(** X2 ([Step] is one-to-one): on a well-formed rotor, in either
    direction, two letters of A-Z that [Step] sends to the same letter are
    the same letter. *)
Theorem Step_injective (r : Rotor.t) (invert : bool) (l1 l2 : Z) :
  is_wiring (Rotor.Sequence r) = true ->
  0 <= Rotor.Offset r < 26 -> 0 <= Rotor.Ring r < 26 ->
  65 <= l1 <= 90 -> 65 <= l2 <= 90 ->
  Rotor.letter (snd (Rotor.Step invert (Rotor.Mem r l1)))
  = Rotor.letter (snd (Rotor.Step invert (Rotor.Mem r l2))) ->
  l1 = l2.
Proof.
  intros Hw Ho Hr Hl1 Hl2 Heq.
  destruct (Step_undo r invert l1 Hw Ho Hr Hl1) as (y1 & _ & Hgo1 & Hback1).
  destruct (Step_undo r invert l2 Hw Ho Hr Hl2) as (y2 & _ & Hgo2 & Hback2).
  rewrite Hgo1, Hgo2 in Heq. simpl in Heq. subst y2.
  rewrite Hback1 in Hback2. by injection Hback2.
Qed.

Lemma Step_injective_witness : 70 = 70.
Proof.
  apply (Step_injective (Rotor.mk "AJDKSIRUXBLHWTMCQGZNPYFVOE" 11 25 ∅) false 70 70);
    [reflexivity | simpl; lia | simpl; lia | lia | lia | reflexivity].
Defined.

(** X3 ([Step] is onto): on a well-formed rotor, in either direction,
    every letter of A-Z is the output of [Step] on some letter of A-Z. *)
Theorem Step_onto (r : Rotor.t) (invert : bool) (y : Z) :
  is_wiring (Rotor.Sequence r) = true ->
  0 <= Rotor.Offset r < 26 -> 0 <= Rotor.Ring r < 26 -> 65 <= y <= 90 ->
  exists l, 65 <= l <= 90 /\
    Rotor.Step invert (Rotor.Mem r l) = (Returned tt, Rotor.Mem r y).
Proof.
  intros Hw Ho Hr Hy.
  destruct (Step_undo r (negb invert) y Hw Ho Hr Hy) as (l & Hl & _ & Hback).
  rewrite negb_involutive in Hback. by exists l.
Qed.

Lemma Step_onto_witness :
  exists l, 65 <= l <= 90 /\
    Rotor.Step true (Rotor.Mem (Rotor.mk "AJDKSIRUXBLHWTMCQGZNPYFVOE" 11 25 ∅) l)
    = (Returned tt, Rotor.Mem (Rotor.mk "AJDKSIRUXBLHWTMCQGZNPYFVOE" 11 25 ∅) 81).
Proof.
  apply (Step_onto (Rotor.mk "AJDKSIRUXBLHWTMCQGZNPYFVOE" 11 25 ∅) true 81);
    [reflexivity | simpl; lia | simpl; lia | lia].
Defined.

(** X4 (when the forward step panics): with offset and ring in [0,26) and
    a letter position in [0,26), whatever the wiring, the forward [Step]
    panics exactly when the wiring is no longer than the shifted index
    [(x - ring + offset + 26) mod 26]. *)
Theorem Step_forward_panics_iff (r : Rotor.t) (x : Z) :
  0 <= Rotor.Offset r < 26 -> 0 <= Rotor.Ring r < 26 -> 0 <= x < 26 ->
  fst (Rotor.Step false (Rotor.Mem r (ToChar x))) = Panicked <->
  len (Rotor.Sequence r) <= Spec.shifted (Rotor.Offset r) (Rotor.Ring r) x.
Proof.
  intros Ho Hr Hx. rewrite ToChar_small by lia.
  pose proof (shifted_range r x) as Hs.
  unfold Rotor.Step, go_bind, go_read, go_write, go_ret.
  cbn [Rotor.this Rotor.letter].
  rewrite (Step_number r Ho Hr x Hx).
  unfold index_string, go_ret, go_panic.
  destruct (Z.leb_spec 0 (Spec.shifted (Rotor.Offset r) (Rotor.Ring r) x)); [|lia].
  destruct (Z.ltb_spec (Spec.shifted (Rotor.Offset r) (Rotor.Ring r) x)
                       (len (Rotor.Sequence r))) as [Hlt|Hge]; simpl.
  - destruct (lookup_lt_is_Some_2 (bytes (Rotor.Sequence r))
               (Z.to_nat (Spec.shifted (Rotor.Offset r) (Rotor.Ring r) x))) as [b Hb].
    { unfold len in Hlt. lia. }
    rewrite Hb. simpl. split; [discriminate|lia].
  - split; [lia|done].
Qed.

Lemma Step_forward_panics_iff_witness :
  fst (Rotor.Step false (Rotor.Mem (Rotor.mk "ABCDEFGHIJ" 4 1 ∅) (ToChar 9))) = Panicked <->
  len "ABCDEFGHIJ" <= Spec.shifted 4 1 9.
Proof.
  apply (Step_forward_panics_iff (Rotor.mk "ABCDEFGHIJ" 4 1 ∅) 9); simpl; lia.
Defined.



(** X6 (inverse step on a letter the wiring lacks): with offset and ring
    in [0,26), when the wiring does not hold the shifted letter,
    [strings.IndexRune] gives -1 and the inverse [Step] returns all the
    same, writing the letter of position [(25 + ring - offset) mod 26]. *)
Theorem Step_inverse_absent_letter (r : Rotor.t) (x : Z) :
  0 <= Rotor.Offset r < 26 -> 0 <= Rotor.Ring r < 26 -> 0 <= x < 26 ->
  65 + Spec.shifted (Rotor.Offset r) (Rotor.Ring r) x ∉ bytes (Rotor.Sequence r) ->
  Rotor.Step true (Rotor.Mem r (ToChar x))
  = (Returned tt, Rotor.Mem r (ToChar ((25 + Rotor.Ring r - Rotor.Offset r) mod 26))).
Proof.
  intros Ho Hr Hx Habs. rewrite ToChar_small by lia.
  pose proof (shifted_range r x) as Hs.
  unfold Rotor.Step, go_bind, go_read, go_write, go_ret, Rotor.set_letter.
  cbn [Rotor.this Rotor.letter].
  rewrite (Step_number r Ho Hr x Hx).
  rewrite (ToChar_small (Spec.shifted _ _ x)) by lia.
  rewrite IndexRune_ascii by lia. unfold strings.IndexByte.
  rewrite IndexByte_from_absent by done.
  rewrite (Step_letter r Ho Hr (-1)) by lia.
  pose proof (Z.mod_pos_bound (25 + Rotor.Ring r - Rotor.Offset r) 26 ltac:(lia)).
  rewrite ToChar_small by lia. unfold Spec.output.
  do 4 f_equal. lia.
Qed.

Lemma Step_inverse_absent_letter_witness :
  Rotor.Step true (Rotor.Mem (Rotor.mk "ABC" 3 7 ∅) (ToChar 10))
  = (Returned tt, Rotor.Mem (Rotor.mk "ABC" 3 7 ∅) (ToChar ((25 + 7 - 3) mod 26))).
Proof.
  apply (Step_inverse_absent_letter (Rotor.mk "ABC" 3 7 ∅) 10); [simpl; lia..|].
  apply (bool_decide_unpack _). by vm_compute.
Defined.

Lemma Spec_Step_conjugate s o g invert x :
  Spec.Step s o g invert x
  = (fun y0 => (y0 - (o - g) mod 26) mod 26)
      <$> Spec.Step s 0 0 invert ((x + (o - g) mod 26) mod 26).
Proof.
  unfold Spec.Step.
  rewrite (Spec_shifted_difference o g), (Spec_shifted_difference 0 0).
  change ((0 - 0) mod 26) with 0. rewrite Z.add_0_r, Zmod_mod.
  destruct (if invert then _ else _) as [n|]; simpl; [|done].
  rewrite (Spec_output_difference o g), (Spec_output_difference 0 0).
  change ((0 - 0) mod 26) with 0. rewrite Z.sub_0_r.
  by rewrite Zminus_mod_idemp_l.
Qed.

(** X7 (turning the rotor conjugates the substitution): on a well-formed
    rotor with [d = (offset - ring) mod 26], [Step] on position [x] is
    [Step] of the same wiring at offset 0 and ring 0 on position
    [(x + d) mod 26], moved back by [d]. *)
Theorem Step_rotation_conjugates (r : Rotor.t) (invert : bool) (x : Z) :
  is_wiring (Rotor.Sequence r) = true ->
  0 <= Rotor.Offset r < 26 -> 0 <= Rotor.Ring r < 26 -> 0 <= x < 26 ->
  exists y0, 0 <= y0 < 26 /\
    Rotor.Step invert
      (Rotor.Mem (with_position r 0 0)
         (ToChar ((x + (Rotor.Offset r - Rotor.Ring r) mod 26) mod 26)))
    = (Returned tt, Rotor.Mem (with_position r 0 0) (ToChar y0)) /\
    Rotor.Step invert (Rotor.Mem r (ToChar x))
    = (Returned tt,
       Rotor.Mem r (ToChar ((y0 - (Rotor.Offset r - Rotor.Ring r) mod 26) mod 26))).
Proof.
  intros Hw Ho Hr Hx.
  pose proof (Z.mod_pos_bound (x + (Rotor.Offset r - Rotor.Ring r) mod 26) 26 ltac:(lia)) as Hx0.
  destruct (Step_eval (with_position r 0 0) invert _ Hw ltac:(simpl; lia) ltac:(simpl; lia) Hx0)
    as (y0 & Hy0 & Hspec0 & Hcode0).
  destruct (Step_eval r invert x Hw Ho Hr Hx) as (y & Hy & Hspec & Hcode).
  cbn [with_position Rotor.Sequence Rotor.Offset Rotor.Ring] in Hspec0.
  rewrite Spec_Step_conjugate, Hspec0 in Hspec. simpl in Hspec. injection Hspec as <-.
  exists y0. split; [done|]. rewrite !ToChar_small by lia. done.
Qed.

Lemma Step_rotation_conjugates_witness :
  exists y0, 0 <= y0 < 26 /\
    Rotor.Step false
      (Rotor.Mem (with_position (Rotor.mk "BDFHJLCPRTXVZNYEIWGAKMUSQO" 9 2 ∅) 0 0)
         (ToChar ((23 + (9 - 2) mod 26) mod 26)))
    = (Returned tt,
       Rotor.Mem (with_position (Rotor.mk "BDFHJLCPRTXVZNYEIWGAKMUSQO" 9 2 ∅) 0 0) (ToChar y0)) /\
    Rotor.Step false (Rotor.Mem (Rotor.mk "BDFHJLCPRTXVZNYEIWGAKMUSQO" 9 2 ∅) (ToChar 23))
    = (Returned tt,
       Rotor.Mem (Rotor.mk "BDFHJLCPRTXVZNYEIWGAKMUSQO" 9 2 ∅)
         (ToChar ((y0 - (9 - 2) mod 26) mod 26))).
Proof.
  apply (Step_rotation_conjugates (Rotor.mk "BDFHJLCPRTXVZNYEIWGAKMUSQO" 9 2 ∅) false 23);
    [reflexivity | simpl; lia | simpl; lia | lia].
Defined.

(** ** More on Reflector.Reflect *)

(** X8 ([Reflect] undoes the table): on a permutation wiring, reflecting
    the letter the table holds at index [i] gives the letter of position
    [i]. *)
Theorem Reflect_after_lookup (f : Reflector.t) (i : Z) :
  is_wiring (Reflector.Sequence f) = true -> 0 <= i < 26 ->
  exists c, bytes (Reflector.Sequence f) !! Z.to_nat i = Some c /\
    Reflector.Reflect (Reflector.Mem f c) = (Returned tt, Reflector.Mem f (ToChar i)).
Proof.
  intros Hw Hi.
  destruct (is_wiring_lookup _ _ Hw Hi) as (n & Hn & Hlook).
  exists (65 + n). split; [done|].
  rewrite (Reflect_wiring f _ _ Hw Hlook), Z2Nat.id by lia.
  by rewrite ToChar_small by lia.
Qed.

Lemma Reflect_after_lookup_witness :
  exists c, bytes (Reflector.Sequence skew_reflector) !! Z.to_nat 7 = Some c /\
    Reflector.Reflect (Reflector.Mem skew_reflector c)
    = (Returned tt, Reflector.Mem skew_reflector (ToChar 7)).
Proof. apply (Reflect_after_lookup skew_reflector 7); [reflexivity | lia]. Defined.

(** X9 ([Reflect] is the inverse [Step] at rest): on a permutation wiring
    and a letter of A-Z, [Reflect] writes the letter that the inverse
    [Step] of a rotor with the same wiring, offset 0 and ring 0 writes. *)
Theorem Reflect_is_inverse_Step (f : Reflector.t) (notch : gmap Z bool) (l : Z) :
  is_wiring (Reflector.Sequence f) = true -> 65 <= l <= 90 ->
  exists y,
    Reflector.Reflect (Reflector.Mem f l) = (Returned tt, Reflector.Mem f y) /\
    Rotor.Step true (Rotor.Mem (Rotor.mk (Reflector.Sequence f) 0 0 notch) l)
    = (Returned tt, Rotor.Mem (Rotor.mk (Reflector.Sequence f) 0 0 notch) y).
Proof.
  intros Hw Hl.
  destruct (is_wiring_find _ (l - 65) Hw ltac:(lia)) as (i & Hi & Hlook).
  exists (65 + i). split.
  - replace (65 + (l - 65)) with l in Hlook by lia.
    rewrite (Reflect_wiring f _ _ Hw Hlook). by rewrite Z2Nat.id by lia.
  - set (r := Rotor.mk (Reflector.Sequence f) 0 0 notch).
    assert (Hs : Spec.shifted (Rotor.Offset r) (Rotor.Ring r) (l - 65) = l - 65).
    { unfold Spec.shifted. simpl.
      replace (l - 65 - 0 + 0 + 26) with (l - 65 + 1 * 26) by lia.
      rewrite Z_mod_plus_full. apply Z.mod_small. lia. }
    assert (Hout : Spec.output (Rotor.Offset r) (Rotor.Ring r) i = i).
    { unfold Spec.output. simpl.
      replace (i + 0 - 0 + 26) with (i + 1 * 26) by lia.
      rewrite Z_mod_plus_full. apply Z.mod_small. lia. }
    replace l with (65 + (l - 65)) at 1 by lia.
    rewrite (Step_invert r ltac:(simpl; lia) ltac:(simpl; lia) (l - 65) i ltac:(lia) Hi).
    + by rewrite Hout.
    + by apply is_wiring_NoDup.
    + by rewrite Hs.
Qed.

Lemma Reflect_is_inverse_Step_witness :
  exists y,
    Reflector.Reflect (Reflector.Mem skew_reflector 72)
    = (Returned tt, Reflector.Mem skew_reflector y) /\
    Rotor.Step true (Rotor.Mem (Rotor.mk (Reflector.Sequence skew_reflector) 0 0 ∅) 72)
    = (Returned tt, Rotor.Mem (Rotor.mk (Reflector.Sequence skew_reflector) 0 0 ∅) y).
Proof. apply (Reflect_is_inverse_Step skew_reflector ∅ 72); [reflexivity | lia]. Defined.

(** X10 (catalog reflectors move every letter): for each of the five
    catalog reflectors and each letter of A-Z, [Reflect] writes a letter
    other than the one it read. *)
Theorem Reflect_catalog_no_fixed_point (id : string) (l : Z) :
  id ∈ reflector_ids -> 65 <= l <= 90 ->
  exists f y, Reflectors !! id = Some f /\
    Reflector.Reflect (Reflector.Mem f l) = (Returned tt, Reflector.Mem f y) /\
    y <> l.
Proof.
  intros [f Hf]%Reflectors_lookup_ids Hl.
  pose proof (Reflectors_involutions _ _ Hf) as Hinv.
  destruct (Reflect_involution f l Hinv Hl) as (y & Hy & Hlook & Hgo & _).
  exists f, y. split; [done|]. split; [done|]. intros ->.
  assert (Hnf : no_fixed_point (Reflector.Sequence f) = true).
  { apply (Reflectors_Forall (fun f => no_fixed_point (Reflector.Sequence f) = true))
      with (id := id); [repeat constructor | done]. }
  unfold no_fixed_point in Hnf. rewrite forallb_forall in Hnf.
  specialize (Hnf (Z.to_nat (l - 65)) ltac:(apply in_seq; lia)).
  apply negb_true_iff, bool_decide_eq_false in Hnf. apply Hnf.
  rewrite Hlook. f_equal. lia.
Qed.

Lemma Reflect_catalog_no_fixed_point_witness :
  exists f y, Reflectors !! "C" = Some f /\
    Reflector.Reflect (Reflector.Mem f 88) = (Returned tt, Reflector.Mem f y) /\
    y <> 88.
Proof.
  apply (Reflect_catalog_no_fixed_point "C" 88); [|lia].
  apply (bool_decide_unpack _). by vm_compute.
Defined.

(** ** Zero values from a catalog miss *)

Lemma int_rem_26_bound a : -26 < int_rem a 26 < 26.
Proof.
  unfold int_rem. destruct (Z_lt_le_dec a 0).
  - pose proof (Z.rem_bound_pos_neg a 26 ltac:(lia) ltac:(lia)). lia.
  - pose proof (Z.rem_bound_pos_pos a 26 ltac:(lia) ltac:(lia)). lia.
Qed.

Lemma IndexRune_empty c : strings.IndexRune "" c = -1.
Proof.
  unfold strings.IndexRune, strings.encode_rune.
  repeat case_match; reflexivity.
Qed.

(** X11 (stepping a missing rotor): the zero-value rotor that a lookup of
    an unknown identifier yields panics on every forward [Step], writing
    nothing, and writes Z on every inverse [Step], whatever the letter. *)
Theorem Step_missing_rotor (id : string) (l : Z) :
  id ∉ rotor_ids ->
  snd (Rotors_index id) = false /\
  Rotor.Step false (Rotor.Mem (fst (Rotors_index id)) l)
  = (Panicked, Rotor.Mem (fst (Rotors_index id)) l) /\
  Rotor.Step true (Rotor.Mem (fst (Rotors_index id)) l)
  = (Returned tt, Rotor.Mem (fst (Rotors_index id)) (rune_lit "Z")).
Proof.
  intros Hid. assert (Hnone : Rotors !! id = None).
  { apply eq_None_not_Some. by rewrite Rotors_lookup_ids. }
  unfold Rotors_index. rewrite Hnone. cbn [fst snd]. split; [done|].
  unfold Rotor.Step, go_bind, go_read, go_write, go_ret, Rotor.set_letter.
  cbn [Rotor.this Rotor.letter Rotor.Sequence Rotor.Offset Rotor.Ring].
  pose proof (int_rem_26_bound (int_add (int_add (int_sub (ToInt l) 0) 0) 26)) as Hb.
  split.
  - unfold index_string, go_panic. change (len "") with 0.
    destruct (Z.leb_spec 0 (int_rem (int_add (int_add (int_sub (ToInt l) 0) 0) 26) 26));
      destruct (Z.ltb_spec (int_rem (int_add (int_add (int_sub (ToInt l) 0) 0) 26) 26) 0);
      simpl; try reflexivity; lia.
  - by rewrite IndexRune_empty.
Qed.

Lemma Step_missing_rotor_witness :
  snd (Rotors_index "IX") = false /\
  Rotor.Step false (Rotor.Mem (fst (Rotors_index "IX")) 75)
  = (Panicked, Rotor.Mem (fst (Rotors_index "IX")) 75) /\
  Rotor.Step true (Rotor.Mem (fst (Rotors_index "IX")) 75)
  = (Returned tt, Rotor.Mem (fst (Rotors_index "IX")) (rune_lit "Z")).
Proof.
  apply (Step_missing_rotor "IX" 75). apply (bool_decide_unpack _). by vm_compute.
Defined.

(** X12 (reflecting with a missing reflector): the zero-value reflector
    that a lookup of an unknown identifier yields reflects every rune to
    '@', the rune before A. *)
Theorem Reflect_missing_reflector (id : string) (l : Z) :
  id ∉ reflector_ids ->
  snd (Reflectors_index id) = false /\
  Reflector.Reflect (Reflector.Mem (fst (Reflectors_index id)) l)
  = (Returned tt, Reflector.Mem (fst (Reflectors_index id)) (rune_lit "@")).
Proof.
  intros Hid. assert (Hnone : Reflectors !! id = None).
  { apply eq_None_not_Some. by rewrite Reflectors_lookup_ids. }
  unfold Reflectors_index. rewrite Hnone. cbn [fst snd]. split; [done|].
  rewrite Reflect_eval. cbn [Reflector.Sequence]. by rewrite IndexRune_empty.
Qed.

Lemma Reflect_missing_reflector_witness :
  snd (Reflectors_index "D") = false /\
  Reflector.Reflect (Reflector.Mem (fst (Reflectors_index "D")) 75)
  = (Returned tt, Reflector.Mem (fst (Reflectors_index "D")) (rune_lit "@")).
Proof.
  apply (Reflect_missing_reflector "D" 75). apply (bool_decide_unpack _). by vm_compute.
Defined.

(** ** NewRotor *)

Lemma notch_fold_lookup (notch : list Z) : forall (m : gmap Z bool) c,
  foldl (fun (m : gmap Z bool) char => <[char := true]> m) m notch !! c
  = if bool_decide (c ∈ notch) then Some true else m !! c.
Proof.
  induction notch as [|d notch IH]; intros m c; cbn [foldl].
  - case_bool_decide as Hin; [|done]. by apply not_elem_of_nil in Hin.
  - rewrite IH. destruct (decide (c ∈ notch)) as [Hin|Hnin].
    + rewrite (bool_decide_eq_true_2 (c ∈ notch)) by done.
      rewrite bool_decide_eq_true_2; [done|]. apply elem_of_cons. by right.
    + rewrite (bool_decide_eq_false_2 (c ∈ notch)) by done.
      destruct (decide (c = d)) as [->|Hne].
      * rewrite lookup_insert_eq, bool_decide_eq_true_2; [done|].
        apply elem_of_cons. by left.
      * rewrite lookup_insert_ne by done.
        rewrite bool_decide_eq_false_2; [done|].
        intros [?|?]%elem_of_cons; done.
Qed.

(** X13 (what [NewRotor] builds): the rotor has the given wiring, offset
    0 and ring 0, and its notch map holds [true] at exactly the runes of
    the notch list, repeated or not, and nothing else. *)
Theorem NewRotor_fields (mapping : string) (notch : list Z) (c : Z) :
  Rotor.Sequence (NewRotor mapping notch) = mapping /\
  Rotor.Offset (NewRotor mapping notch) = 0 /\
  Rotor.Ring (NewRotor mapping notch) = 0 /\
  Rotor.Notch (NewRotor mapping notch) !! c
  = (if bool_decide (c ∈ notch) then Some true else None) /\
  map_read (Rotor.Notch (NewRotor mapping notch)) c = bool_decide (c ∈ notch).
Proof.
  unfold NewRotor, map_read. cbn [Rotor.Sequence Rotor.Offset Rotor.Ring Rotor.Notch].
  rewrite notch_fold_lookup, lookup_empty.
  repeat split. by destruct (bool_decide (c ∈ notch)).
Qed.

(** ** Rotors and a reflector in a chain *)
Section Chain.

Lemma step_on_undo (r : Rotor.t) (invert : bool) (l : Z) :
  Rotor_ok r = true -> 65 <= l <= 90 ->
  exists y, 65 <= y <= 90 /\
    step_on r invert l = (Returned tt, y) /\
    step_on r (negb invert) y = (Returned tt, l).
Proof.
  intros (Hw & Ho & Hr)%Rotor_ok_unfold Hl.
  destruct (Step_undo r invert l Hw Ho Hr Hl) as (y & Hy & Hgo & Hback).
  exists y. split; [done|]. unfold step_on. by rewrite Hgo, Hback.
Qed.

Lemma reflect_on_undo (f : Reflector.t) (l : Z) :
  is_involution (Reflector.Sequence f) = true -> 65 <= l <= 90 ->
  exists y, 65 <= y <= 90 /\
    bytes (Reflector.Sequence f) !! Z.to_nat (l - 65) = Some y /\
    reflect_on f l = (Returned tt, y) /\
    reflect_on f y = (Returned tt, l).
Proof.
  intros Hinv Hl.
  destruct (Reflect_involution f l Hinv Hl) as (y & Hy & Hlook & Hgo & Hback).
  exists y. split; [done|]. split; [done|]. unfold reflect_on. by rewrite Hgo, Hback.
Qed.

Lemma forward_backward (rs : list Rotor.t) : forall l,
  forallb Rotor_ok rs = true -> 65 <= l <= 90 ->
  exists y, 65 <= y <= 90 /\
    forward_pass rs l = (Returned tt, y) /\
    backward_pass rs y = (Returned tt, l).
Proof.
  induction rs as [|r rs IH]; intros l Hok Hl.
  - by exists l.
  - simpl in Hok. apply andb_prop in Hok as [Hr Hrs].
    destruct (step_on_undo r false l Hr Hl) as (y1 & Hy1 & Hgo1 & Hback1).
    destruct (IH y1 Hrs Hy1) as (y & Hy & Hgo & Hback).
    exists y. split; [done|]. cbn [forward_pass backward_pass]. split.
    + by rewrite (go_bind_returned _ _ _ _ _ Hgo1).
    + by rewrite (go_bind_returned _ _ _ _ _ Hback).
Qed.

Lemma backward_forward (rs : list Rotor.t) : forall l,
  forallb Rotor_ok rs = true -> 65 <= l <= 90 ->
  exists y, 65 <= y <= 90 /\
    backward_pass rs l = (Returned tt, y) /\
    forward_pass rs y = (Returned tt, l).
Proof.
  induction rs as [|r rs IH]; intros l Hok Hl.
  - by exists l.
  - simpl in Hok. apply andb_prop in Hok as [Hr Hrs].
    destruct (IH l Hrs Hl) as (y1 & Hy1 & Hgo1 & Hback1).
    destruct (step_on_undo r true y1 Hr Hy1) as (y & Hy & Hgo & Hback).
    exists y. split; [done|]. cbn [forward_pass backward_pass]. split.
    + by rewrite (go_bind_returned _ _ _ _ _ Hgo1).
    + by rewrite (go_bind_returned _ _ _ _ _ Hback).
Qed.

End Chain.

(** X14 (round trip through a stack of rotors): stepping a letter forward
    through any list of well-formed rotors in order and then backwards
    through them in the opposite order returns, with the letter back. *)
Theorem rotor_stack_round_trip (rs : list Rotor.t) (l : Z) :
  forallb Rotor_ok rs = true -> 65 <= l <= 90 ->
  (forward_pass rs ;;; backward_pass rs) l = (Returned tt, l).
Proof.
  intros Hok Hl.
  destruct (forward_backward rs l Hok Hl) as (y & _ & Hgo & Hback).
  by rewrite (go_bind_returned _ _ _ _ _ Hgo).
Qed.

Lemma rotor_stack_round_trip_witness :
  (forward_pass [Rotor.mk "BDFHJLCPRTXVZNYEIWGAKMUSQO" 5 0 ∅;
                 Rotor.mk "AJDKSIRUXBLHWTMCQGZNPYFVOE" 0 13 ∅;
                 Rotor.mk "EKMFLGDQVZNTOWYHXUSPAIBRCJ" 25 25 ∅] ;;;
   backward_pass [Rotor.mk "BDFHJLCPRTXVZNYEIWGAKMUSQO" 5 0 ∅;
                  Rotor.mk "AJDKSIRUXBLHWTMCQGZNPYFVOE" 0 13 ∅;
                  Rotor.mk "EKMFLGDQVZNTOWYHXUSPAIBRCJ" 25 25 ∅]) 71
  = (Returned tt, 71).
Proof.
  apply (rotor_stack_round_trip
           [Rotor.mk "BDFHJLCPRTXVZNYEIWGAKMUSQO" 5 0 ∅;
            Rotor.mk "AJDKSIRUXBLHWTMCQGZNPYFVOE" 0 13 ∅;
            Rotor.mk "EKMFLGDQVZNTOWYHXUSPAIBRCJ" 25 25 ∅] 71);
    [reflexivity | lia].
Defined.

(** X15 (the signal path is its own inverse): with well-formed rotors and
    a reflector whose wiring is an involution, sending a letter forward
    through the rotors, through [Reflect] and back through the rotors,
    twice over with the rotors left as they are, gives the letter back. *)
Theorem signal_path_self_inverse (rs : list Rotor.t) (f : Reflector.t) (l : Z) :
  forallb Rotor_ok rs = true ->
  is_involution (Reflector.Sequence f) = true -> 65 <= l <= 90 ->
  (signal_path rs f ;;; signal_path rs f) l = (Returned tt, l).
Proof.
  intros Hok Hinv Hl.
  destruct (forward_backward rs l Hok Hl) as (a & Ha & Hfwd & Hfwd_back).
  destruct (reflect_on_undo f a Hinv Ha) as (b & Hb & _ & Hrefl & Hrefl_back).
  destruct (backward_forward rs b Hok Hb) as (y & Hy & Hbwd & Hbwd_back).
  assert (Hpath : forall u v w, forward_pass rs u = (Returned tt, v) ->
                    reflect_on f v = (Returned tt, w) ->
                    signal_path rs f u = backward_pass rs w).
  { intros u v w Hu Hv. unfold signal_path.
    rewrite (go_bind_returned _ _ _ _ _ Hu). by rewrite (go_bind_returned _ _ _ _ _ Hv). }
  assert (Hfirst : signal_path rs f l = (Returned tt, y)).
  { by rewrite (Hpath l a b Hfwd Hrefl). }
  rewrite (go_bind_returned _ _ _ _ _ Hfirst).
  by rewrite (Hpath y b a Hbwd_back Hrefl_back).
Qed.

Lemma signal_path_self_inverse_witness :
  (signal_path [Rotor.mk "BDFHJLCPRTXVZNYEIWGAKMUSQO" 5 0 ∅;
                Rotor.mk "AJDKSIRUXBLHWTMCQGZNPYFVOE" 0 13 ∅]
               (Reflector.mk "YRUHQSLDPXNGOKMIEBFZCWVJAT") ;;;
   signal_path [Rotor.mk "BDFHJLCPRTXVZNYEIWGAKMUSQO" 5 0 ∅;
                Rotor.mk "AJDKSIRUXBLHWTMCQGZNPYFVOE" 0 13 ∅]
               (Reflector.mk "YRUHQSLDPXNGOKMIEBFZCWVJAT")) 71
  = (Returned tt, 71).
Proof.
  apply (signal_path_self_inverse
           [Rotor.mk "BDFHJLCPRTXVZNYEIWGAKMUSQO" 5 0 ∅;
            Rotor.mk "AJDKSIRUXBLHWTMCQGZNPYFVOE" 0 13 ∅]
           (Reflector.mk "YRUHQSLDPXNGOKMIEBFZCWVJAT") 71);
    [reflexivity | reflexivity | lia].
Defined.

(** X16 (no letter comes back as itself): with well-formed rotors and a
    reflector whose wiring is an involution without fixed point, the
    signal path returns a letter of A-Z other than the one sent in. *)
Theorem signal_path_no_fixed_point (rs : list Rotor.t) (f : Reflector.t) (l : Z) :
  forallb Rotor_ok rs = true ->
  is_involution (Reflector.Sequence f) = true ->
  no_fixed_point (Reflector.Sequence f) = true -> 65 <= l <= 90 ->
  exists y, 65 <= y <= 90 /\ signal_path rs f l = (Returned tt, y) /\ y <> l.
Proof.
  intros Hok Hinv Hnf Hl.
  destruct (forward_backward rs l Hok Hl) as (a & Ha & Hfwd & _).
  destruct (reflect_on_undo f a Hinv Ha) as (b & Hb & Hlook & Hrefl & _).
  destruct (backward_forward rs b Hok Hb) as (y & Hy & Hbwd & Hbwd_back).
  exists y. split; [done|]. split.
  - unfold signal_path. rewrite (go_bind_returned _ _ _ _ _ Hfwd).
    by rewrite (go_bind_returned _ _ _ _ _ Hrefl).
  - intros ->. rewrite Hfwd in Hbwd_back. injection Hbwd_back as ->.
    unfold no_fixed_point in Hnf. rewrite forallb_forall in Hnf.
    specialize (Hnf (Z.to_nat (b - 65)) ltac:(apply in_seq; lia)).
    apply negb_true_iff, bool_decide_eq_false in Hnf. apply Hnf.
    rewrite Hlook. f_equal. lia.
Qed.

Lemma signal_path_no_fixed_point_witness :
  exists y, 65 <= y <= 90 /\
    signal_path [Rotor.mk "BDFHJLCPRTXVZNYEIWGAKMUSQO" 5 0 ∅;
                 Rotor.mk "AJDKSIRUXBLHWTMCQGZNPYFVOE" 0 13 ∅]
                (Reflector.mk "YRUHQSLDPXNGOKMIEBFZCWVJAT") 71
    = (Returned tt, y) /\ y <> 71.
Proof.
  apply (signal_path_no_fixed_point
           [Rotor.mk "BDFHJLCPRTXVZNYEIWGAKMUSQO" 5 0 ∅;
            Rotor.mk "AJDKSIRUXBLHWTMCQGZNPYFVOE" 0 13 ∅]
           (Reflector.mk "YRUHQSLDPXNGOKMIEBFZCWVJAT") 71);
    [reflexivity | reflexivity | reflexivity | lia].
Defined.
